(** * Advance_Rag_Chatbot: a shallow embedding of the pipeline utilities

    The development follows the Python modules under [utils/]:
    - [Memory]     : utils/memory.py             (ConversationMemory)
    - [Chunker]    : utils/document_processor.py (DocumentProcessor._split_text)
    - [Evaluator]  : utils/evaluator.py          (RAGEvaluator)
    - [Rerank]     : utils/reranker.py           (Reranker.rerank)
    - [Store]      : utils/vector_store.py       (VectorStore)

    Conventions.  A Python [int] is a [Z]; a [str] that the code takes
    apart is the list of its characters, [list ascii], a character being a
    code point below 256, and a [str] that is only stored or compared is a
    [string]; a [float] is an exact rational [Q], so that [round(x, 4)] is
    decimal rounding (half to even) of the exact value; a [dict] is a
    [gmap] or, when its keys are fixed, a record; a [set] is a [gset] and
    a [Counter] a [gmultiset]; a raised exception is the [Raise] branch of
    [result]. *)

From Stdlib Require Import ZArith QArith Qround Qminmax Lia Lqa Ascii String.
From stdpp Require Import gmap strings list fin_maps gmultiset sorting pretty.

#[local] Open Scope Z_scope.
#[local] Open Scope list_scope.

(** ** Exceptions and Python slices *)

Inductive exn : Set :=
| ValueError
| KeyError
| TypeError
| OverflowError.

Inductive result (A : Type) : Type :=
| Ok (a : A)
| Raise (e : exn).
Arguments Ok {A} a.
Arguments Raise {A} e.

#[global] Instance result_bind : MBind result := fun A B k r =>
  match r with
  | Ok a => k a
  | Raise e => Raise e
  end.

#[global] Instance result_fmap : FMap result := fun A B f r =>
  match r with
  | Ok a => Ok (f a)
  | Raise e => Raise e
  end.

(** [l[start:]] : a negative [start] counts from the end, and both kinds
    are clamped to the bounds of [l]; [-0] is [0]. *)
Definition slice_from {A} (start : Z) (l : list A) : list A :=
  let len := Z.of_nat (length l) in
  let s := if start <? 0 then Z.max (start + len) 0 else Z.min start len in
  drop (Z.to_nat s) l.

(** [l[:stop]], with the same treatment of [stop]. *)
Definition slice_to {A} (stop : Z) (l : list A) : list A :=
  let len := Z.of_nat (length l) in
  let s := if stop <? 0 then Z.max (stop + len) 0 else Z.min stop len in
  take (Z.to_nat s) l.

(** ** utils/memory.py *)

Module Memory.

(** A turn is the dict [{"role": .., "content": .., "ts": ..}]. *)
Record Turn : Set := mkTurn {
  role : string;
  content : string;
  ts : string
}.

(** [collections.deque(maxlen=n)]: the bound is fixed at construction. *)
Record deque : Set := mkDeque {
  maxlen : nat;
  items : list Turn
}.

(** The bounds of a C [Py_ssize_t], on a 64-bit build of the
    interpreter. *)
Definition PY_SSIZE_T_MAX : Z := 2 ^ 63 - 1.
Definition PY_SSIZE_T_MIN : Z := - 2 ^ 63.

(** [deque(maxlen=n)].  The constructor first converts [n] to a
    [Py_ssize_t] and raises [OverflowError] when it does not fit; it then
    raises [ValueError] for a negative [n]. *)
Definition deque_new (n : Z) : result deque :=
  if (n <? PY_SSIZE_T_MIN) || (PY_SSIZE_T_MAX <? n) then Raise OverflowError
  else if n <? 0 then Raise ValueError
  else Ok {| maxlen := Z.to_nat n; items := [] |}.

(** [d.append(x)]: [x] goes to the right end; what then exceeds [maxlen]
    is discarded from the left end. *)
Definition deque_append (x : Turn) (d : deque) : deque :=
  let l := items d ++ [x] in
  {| maxlen := maxlen d; items := drop (length l - maxlen d) l |}.

Record ConversationMemory : Type := mkMemory {
  max_turns : Z;
  _sessions : gmap string deque
}.

(** [ConversationMemory(max_turns)] *)
Definition init (n : Z) : ConversationMemory :=
  {| max_turns := n; _sessions := ∅ |}.

(** [add_turn]; [now] is what [datetime.now().isoformat()] returns at the
    call.  When the deque constructor raises, nothing has been stored. *)
Definition add_turn (m : ConversationMemory)
    (session_id role content now : string) : result ConversationMemory :=
  d ← match _sessions m !! session_id with
      | Some d => Ok d
      | None => deque_new (max_turns m * 2)
      end;
  Ok {| max_turns := max_turns m;
        _sessions := <[session_id :=
                        deque_append (mkTurn role content now) d]>
                       (_sessions m) |}.

(** [list(self._sessions.get(session_id, []))] *)
Definition get_history (m : ConversationMemory) (session_id : string)
    : list Turn :=
  match _sessions m !! session_id with
  | Some d => items d
  | None => []
  end.

(** [self._sessions.pop(session_id, None)]; the log line has no effect
    on the memory. *)
Definition clear (m : ConversationMemory) (session_id : string)
    : ConversationMemory :=
  {| max_turns := max_turns m;
     _sessions := delete session_id (_sessions m) |}.

Definition session_count (m : ConversationMemory) : nat :=
  size (_sessions m).

(** One [add_turn] call: session id, role, content and clock reading. *)
Record call : Set := mkCall {
  c_session : string;
  c_role : string;
  c_content : string;
  c_now : string
}.

Definition step (r : result ConversationMemory) (c : call)
    : result ConversationMemory :=
  m ← r; add_turn m (c_session c) (c_role c) (c_content c) (c_now c).

(** The calls made one after the other on a memory. *)
Definition run (m : ConversationMemory) (calls : list call)
    : result ConversationMemory :=
  foldl step (Ok m) calls.

(** The turns handed to [add_turn] for [sid], in call order. *)
Definition appended (sid : string) (calls : list call) : list Turn :=
  (fun c => mkTurn (c_role c) (c_content c) (c_now c))
    <$> filter (fun c => c_session c = sid) calls.

(** The [n] most recent elements of [l], oldest first. *)
Definition most_recent {A} (n : nat) (l : list A) : list A :=
  drop (length l - n) l.

(** What a memory built by [add_turn] calls alone looks like: every
    session holds a deque of bound [2 * max_turns] whose items are the
    window over what was appended to it. *)
Definition tracks (n : Z) (calls : list call) (m : ConversationMemory)
    : Prop :=
  max_turns m = n ∧
  ∀ sid,
    match _sessions m !! sid with
    | Some d => maxlen d = Z.to_nat (n * 2) ∧
                items d = most_recent (maxlen d) (appended sid calls)
    | None => appended sid calls = []
    end.

(** Four calls on two sessions. *)
Definition demo_calls : list call :=
  [ mkCall "s"%string "user" "q1" "t1"; mkCall "s"%string "assistant" "a1" "t2";
    mkCall "z"%string "user" "hello" "t3"; mkCall "s"%string "user" "q2" "t4" ].

End Memory.

(** ** Characters and strings

    A character is a code point below 256; [str] values are lists of
    characters. *)

Definition text : Set := list ascii.

Definition code (c : ascii) : N := N_of_ascii c.

Definition in_range (lo hi : N) (c : ascii) : bool :=
  ((lo <=? code c) && (code c <=? hi))%N.

(** [str.isspace] on one character, which is also the class [\s] of a
    [str] pattern and what [str.strip()] removes: TAB..CR, FS..US, space,
    NEL and the no-break space. *)
Definition is_space (c : ascii) : bool :=
  in_range 9 13 c || in_range 28 32 c || (code c =? 133)%N
  || (code c =? 160)%N.

(** The class [[.!?]]. *)
Definition is_terminator (c : ascii) : bool :=
  (code c =? 46)%N || (code c =? 33)%N || (code c =? 63)%N.

Fixpoint lstrip (s : text) : text :=
  match s with
  | c :: rest => if is_space c then lstrip rest else s
  | [] => []
  end.

(** [s.strip()] *)
Definition strip (s : text) : text :=
  reverse (lstrip (reverse (lstrip s))).

(** [sep.join(parts)] *)
Fixpoint join (sep : text) (parts : list text) : text :=
  match parts with
  | [] => []
  | [p] => p
  | p :: rest => p ++ sep ++ join sep rest
  end.

Definition space : text := [" "%char].

(** A string literal as a [str] value. *)
Definition txt (s : string) : text := list_ascii_of_string s.

(** [re.split(r'(?<=[.!?])\s+', s)].  A separator starts at a whitespace
    character that comes right after a terminator and runs over all the
    whitespace that follows; the search resumes after it.  [cur] is the
    piece being read, last character first; [skipping] says that the scan
    is inside a separator. *)
Fixpoint split_scan (skipping : bool) (cur : text) (s : text) : list text :=
  match s with
  | [] => [reverse cur]
  | c :: rest =>
      if skipping then
        if is_space c then split_scan true cur rest
        else split_scan false [c] rest
      else if is_space c && from_option is_terminator false (head cur) then
        reverse cur :: split_scan true [] rest
      else split_scan false (c :: cur) rest
  end.

Definition re_split_sentences (s : text) : list text :=
  split_scan false [] s.

(** ** utils/document_processor.py *)

Module Chunker.

(** The metadata dict of a chunk has exactly these three keys. *)
Record Metadata : Set := mkMetadata {
  source : string;
  chunk_idx : Z;
  char_count : Z
}.

Record DocumentChunk : Set := mkChunk {
  chunk_text : text;
  metadata : Metadata
}.

Record DocumentProcessor : Set := mkProcessor {
  chunk_size : Z;
  chunk_overlap : Z
}.

(** [DocumentProcessor()] *)
Definition default_processor : DocumentProcessor :=
  {| chunk_size := 500; chunk_overlap := 100 |}.

(** The three variables of the loop of [_split_text]. *)
Record loop_state : Set := mkLoop {
  chunks : list DocumentChunk;
  current : list text;
  curr_len : Z
}.

(** [chunks.append(DocumentChunk(..))] under [if chunk_text:] *)
Definition emit (src : string) (cs : list DocumentChunk) (t : text)
    : list DocumentChunk :=
  match t with
  | [] => cs
  | _ => cs ++ [ {| chunk_text := t;
                    metadata := {| source := src;
                                   chunk_idx := Z.of_nat (length cs);
                                   char_count := Z.of_nat (length t) |} |} ]
  end.

(** [chunk_text[-self.chunk_overlap:]] *)
Definition overlap_text (p : DocumentProcessor) (t : text) : text :=
  slice_from (- chunk_overlap p) t.

(** One iteration of [for sentence in sentences]. *)
Definition split_step (p : DocumentProcessor) (src : string)
    (st : loop_state) (sentence : text) : loop_state :=
  let s_len := Z.of_nat (length sentence) in
  let st' :=
    if (chunk_size p <? curr_len st + s_len)
       && negb (bool_decide (current st = [])) then
      let t := strip (join space (current st)) in
      let o := overlap_text p t in
      {| chunks := emit src (chunks st) t;
         current := [o];
         curr_len := Z.of_nat (length o) |}
    else st in
  {| chunks := chunks st';
     current := current st' ++ [sentence];
     curr_len := curr_len st' + s_len + 1 |}.

Definition split_loop (p : DocumentProcessor) (src : string)
    (sentences : list text) : loop_state :=
  foldl (split_step p src)
        {| chunks := []; current := []; curr_len := 0 |} sentences.

(** The flush after the loop. *)
Definition flush (src : string) (st : loop_state) : list DocumentChunk :=
  match current st with
  | [] => chunks st
  | _ => emit src (chunks st) (strip (join space (current st)))
  end.

Definition _split_text (p : DocumentProcessor) (t : text) (src : string)
    : list DocumentChunk :=
  flush src (split_loop p src (re_split_sentences t)).

Definition idx_of (c : DocumentChunk) : Z := chunk_idx (metadata c).

(** Chunk [i] carries index [i]. *)
Definition numbered (cs : list DocumentChunk) : Prop :=
  idx_of <$> cs = Z.of_nat <$> seq 0 (length cs).

(** The length of the buffer once joined. *)
Definition joined_len (st : loop_state) : Z :=
  Z.of_nat (length (join space (current st))).

(** [n] exceeds [chunk_size] by no more than the length of one of the
    sentences. *)
Definition within (p : DocumentProcessor) (sentences : list text) (n : Z)
    : Prop :=
  ∃ s, s ∈ sentences ∧ n ≤ chunk_size p + Z.of_nat (length s).

Definition chunks_within (p : DocumentProcessor) (sentences : list text)
    (cs : list DocumentChunk) : Prop :=
  Forall (λ c, within p sentences (char_count (metadata c))) cs.

(** What holds of the loop after any sentence. *)
Definition buffer_within (p : DocumentProcessor) (sentences : list text)
    (st : loop_state) : Prop :=
  chunks_within p sentences (chunks st) ∧
  (current st ≠ [] → within p sentences (joined_len st)).

(** What holds of the loop as long as the sentences read were not empty:
    the buffer is empty, or it is the first one ([curr_len] counts one
    separator too many), or it starts with an overlap and holds a
    sentence of at least one character. *)
Definition loop_inv (p : DocumentProcessor) (sentences : list text)
    (st : loop_state) : Prop :=
  chunks_within p sentences (chunks st) ∧
  ( (current st = [] ∧ curr_len st = 0)
  ∨ (current st ≠ [] ∧ joined_len st + 1 ≤ curr_len st
     ∧ within p sentences (joined_len st))
  ∨ (current st ≠ [] ∧ joined_len st ≤ curr_len st
     ∧ ∃ s0, s0 ∈ sentences ∧ 1 ≤ Z.of_nat (length s0)
             ∧ joined_len st ≤ chunk_size p + Z.of_nat (length s0)) ).

(** The input on which a zero overlap shows. *)
Definition no_overlap : DocumentProcessor :=
  {| chunk_size := 5; chunk_overlap := 0 |}.

Definition three_sentences : text := txt "abc. def. ghi.".

Definition chunk_of (s src : string) (i : Z) : DocumentChunk :=
  {| chunk_text := txt s;
     metadata := {| source := src; chunk_idx := i;
                    char_count := Z.of_nat (String.length s) |} |}.

End Chunker.

(** ** Floats as exact rationals *)

(** The integer nearest to [q], ties to the even one. *)
Definition round_half_even (q : Q) : Z :=
  let f := Qfloor q in
  let r := (q - inject_Z f)%Q in
  match (r ?= 1 # 2)%Q with
  | Lt => f
  | Gt => f + 1
  | Eq => if Z.even f then f else f + 1
  end.

(** [round(q, 4)] *)
Definition round4 (q : Q) : Q :=
  (inject_Z (round_half_even (q * inject_Z 10000)) / inject_Z 10000)%Q.

(** [a / b] on two lengths *)
Definition ratio (a b : nat) : Q :=
  (inject_Z (Z.of_nat a) / inject_Z (Z.of_nat b))%Q.

(** A score of the unit interval. *)
Definition unit_score (q : Q) : Prop := (0 <= q <= 1)%Q.

(** [x > y] on floats *)
Definition Qgtb (x y : Q) : bool := negb (Qle_bool x y).

(** ** utils/evaluator.py *)

Module Evaluator.

(** The class [[a-z]]. *)
Definition is_az (c : ascii) : bool := in_range 97 122 c.

(** The class [\w] of a [str] pattern: alphanumeric or the underscore.
    Below 256 the alphanumeric characters are the ASCII digits and
    letters, the ordinal indicators, the micro sign, the superscripts
    1 to 3, the three vulgar fractions and the accented letters. *)
Definition is_word (c : ascii) : bool :=
  in_range 48 57 c || in_range 65 90 c || in_range 97 122 c
  || (code c =? 95)%N
  || (code c =? 170)%N || (code c =? 181)%N || (code c =? 186)%N
  || in_range 178 179 c || (code c =? 185)%N || in_range 188 190 c
  || in_range 192 214 c || in_range 216 246 c || in_range 248 255 c.

(** [str.lower] on one character below 256: the capital letters [A-Z],
    [À-Ö] and [Ø-Þ] move up by 32 and every other character stays.  On
    these characters [str.lower] gives one character for one, so that
    the length of a string is kept; beyond them it need not be (U+0130
    becomes two characters), and such strings are outside [text]. *)
Definition lower_char (c : ascii) : ascii :=
  if in_range 65 90 c || in_range 192 214 c || in_range 216 222 c
  then ascii_of_N (code c + 32)
  else c.

Definition lower (s : text) : text := lower_char <$> s.

(** Where the scan of [re.findall(r'\b[a-z]{2,}\b', s)] stands: outside
    a run of word characters, inside a run made of [a-z] only (kept last
    character first), or inside a run that holds another word
    character.  [\b] holds only at the two ends of a run of word
    characters, and [[a-z]{2,}] cannot stop before the end of its run of
    letters, so a match is a whole run of word characters that is made
    of two or more letters [a-z]. *)
Inductive scan : Set :=
| Outside
| Letters (run : text)
| Spoiled.

Definition scan_step (st : scan) (c : ascii) : scan :=
  match st with
  | Outside => if is_az c then Letters [c] else Spoiled
  | Letters run => if is_az c then Letters (c :: run) else Spoiled
  | Spoiled => Spoiled
  end.

(** The match that ends where a run of word characters ends. *)
Definition scan_emit (st : scan) : list text :=
  match st with
  | Letters run => if (2 <=? length run)%nat then [reverse run] else []
  | _ => []
  end.

Fixpoint findall_words (st : scan) (s : text) : list text :=
  match s with
  | [] => scan_emit st
  | c :: rest =>
      if is_word c then findall_words (scan_step st c) rest
      else scan_emit st ++ findall_words Outside rest
  end.

Definition _tokenize (s : text) : list text :=
  findall_words Outside (lower s).

(** [[s.strip() for s in re.split(..) if s.strip()]] *)
Definition _split_sentences (s : text) : list text :=
  filter (fun t => t ≠ []) (strip <$> re_split_sentences s).

Definition token_set (s : text) : gset text := list_to_set (_tokenize s).

Definition _faithfulness (answer : text) (contexts : list text) : Q :=
  if bool_decide (contexts = []) || bool_decide (answer = []) then 0
  else
    let answer_sentences := _split_sentences answer in
    if bool_decide (answer_sentences = []) then 0
    else
      let combined_context := lower (join space contexts) in
      let supported :=
        length (filter
          (fun sent =>
             let tokens := token_set sent in
             tokens ≠ ∅ ∧
             Qgtb (ratio (size (tokens ∩ token_set combined_context))
                         (size tokens)) (1 # 2) = true)
          answer_sentences) in
      round4 (ratio supported (length answer_sentences)).

Definition stopwords : gset text :=
  list_to_set (txt <$>
    ["what"; "is"; "the"; "a"; "an"; "of"; "in"; "to"; "how";
     "does"; "do"; "can"; "who"; "when"; "where"; "why"; "which"]%string).

Definition _answer_relevancy (question answer : text) : Q :=
  if bool_decide (question = []) || bool_decide (answer = []) then 0
  else
    let q_tokens := token_set question ∖ stopwords in
    let a_tokens := token_set answer in
    if bool_decide (q_tokens = ∅) then 1 # 2
    else
      let overlap := size (q_tokens ∩ a_tokens) in
      let score := Qmin (ratio overlap (size q_tokens)) 1 in
      let score :=
        if (length answer <? 20)%nat then (score * (1 # 2))%Q else score in
      round4 score.

Definition _context_precision (question : text) (contexts : list text)
    : Q :=
  if bool_decide (contexts = []) then 0
  else
    let q_tokens := token_set question in
    if bool_decide (q_tokens = ∅) then 1 # 2
    else
      let relevant :=
        length (filter
          (fun ctx =>
             Qgtb (ratio (size (q_tokens ∩ token_set ctx))
                         (size q_tokens)) (3 # 10) = true)
          contexts) in
      round4 (ratio relevant (length contexts)).

Definition _context_recall (contexts : list text) (ground_truth : text)
    : Q :=
  if bool_decide (ground_truth = []) || bool_decide (contexts = []) then 0
  else
    let gt_tokens := token_set ground_truth in
    let ctx_tokens := token_set (join space contexts) in
    if bool_decide (gt_tokens = ∅) then 1 # 2
    else
      let recall := ratio (size (gt_tokens ∩ ctx_tokens)) (size gt_tokens) in
      round4 (Qmin recall 1).

(** [Counter(self._tokenize(s))] *)
Definition token_counter (s : text) : gmultiset text :=
  list_to_set_disj (_tokenize s).

Definition _answer_correctness (answer ground_truth : text) : Q :=
  if bool_decide (ground_truth = []) || bool_decide (answer = []) then 0
  else
    let a_tokens := token_counter answer in
    let gt_tokens := token_counter ground_truth in
    let common := size (a_tokens ∩ gt_tokens) in
    if (common =? 0)%nat then 0
    else
      let precision := ratio common (size a_tokens) in
      let recall := ratio common (size gt_tokens) in
      round4 (2 * precision * recall / (precision + recall))%Q.

Inductive label : Set := Excellent | Good | Fair | Poor.

(** The dict [evaluate] returns.  [context_recall] is [None] without a
    ground truth, and the key [answer_correctness] is then absent, which
    is [None] here too. *)
Record scores : Set := mkScores {
  faithfulness : Q;
  answer_relevancy : Q;
  context_precision : Q;
  context_recall : option Q;
  answer_correctness : option Q;
  aggregate : Q;
  quality_label : label
}.

(** [if ground_truth]: given and not the empty string. *)
Definition truthy (g : option text) : option text :=
  match g with
  | Some [] | None => None
  | Some t => Some t
  end.

Definition Qsum (l : list Q) : Q := foldl Qplus 0%Q l.

(** [round(sum(valid) / len(valid), 4) if valid else 0.0] *)
Definition aggregate_of (valid : list Q) : Q :=
  match valid with
  | [] => 0
  | _ => round4 (Qsum valid / inject_Z (Z.of_nat (length valid)))
  end.

Definition label_of (agg : Q) : label :=
  if Qle_bool (8 # 10) agg then Excellent
  else if Qle_bool (6 # 10) agg then Good
  else if Qle_bool (4 # 10) agg then Fair
  else Poor.

Definition evaluate (question answer : text) (contexts : list text)
    (ground_truth : option text) : scores :=
  let f := _faithfulness answer contexts in
  let r := _answer_relevancy question answer in
  let p := _context_precision question contexts in
  let cr := _context_recall contexts <$> truthy ground_truth in
  let ac := _answer_correctness answer <$> truthy ground_truth in
  let valid := [f; r; p] ++ option_list cr ++ option_list ac in
  let agg := aggregate_of valid in
  {| faithfulness := f; answer_relevancy := r; context_precision := p;
     context_recall := cr; answer_correctness := ac;
     aggregate := agg; quality_label := label_of agg |}.

(** The values of the returned dict that are not [None], metric keys
    only, in key order. *)
Definition non_null (s : scores) : list Q :=
  [faithfulness s; answer_relevancy s; context_precision s]
  ++ option_list (context_recall s) ++ option_list (answer_correctness s).

Definition mean (l : list Q) : Q :=
  match l with
  | [] => 0
  | _ => Qsum l / inject_Z (Z.of_nat (length l))
  end.

End Evaluator.

(** The scenario of the faithfulness test. *)
Definition paris_answer : text := txt "Paris is the capital of France.".
Definition paris_contexts : list text :=
  [txt "France's capital is Paris, a major European city."].

(** The same answer and context under the question ["is"], without a
    ground truth. *)
Definition short_question_scores : Evaluator.scores :=
  Evaluator.evaluate (txt "is") paris_answer paris_contexts None.

(** ** utils/reranker.py *)

Module Rerank.

(** What a hit dict holds under a key. *)
Inductive value : Set :=
| VStr (s : text)
| VFloat (q : Q)
| VMeta (m : Chunker.Metadata).

(** A hit is a dict; the candidate list holds references to dicts, and
    the dicts live in a store shared with the caller. *)
Abbreviation loc := positive.
Abbreviation store := (gmap positive (gmap string value)).

(** The cross-encoder, seen from outside: a score for a (query, passage)
    pair; [predict] scores a batch pair by pair. *)
Definition scorer : Type := text → text → Q.

Definition predict (m : scorer) (pairs : list (text * text)) : list Q :=
  (fun p => m p.1 p.2) <$> pairs.

Record Reranker : Type := mkReranker {
  model_name : string;
  _model : option scorer
}.

(** What a call did: the batches sent to the scoring service, the store
    after the call and the list returned. *)
Record outcome : Type := mkOutcome {
  predict_calls : list (list (text * text));
  store_after : store;
  returned : list loc
}.

(** [doc[key]] *)
Definition getitem (h : store) (doc : loc) (key : string) : result value :=
  match h !! doc ≫= (.!! key) with
  | Some v => Ok v
  | None => Raise KeyError
  end.

(** [doc[key] = v] *)
Definition setitem (h : store) (doc : loc) (key : string) (v : value)
    : store :=
  alter (insert key v) doc h.

(** [(query, doc["text"])]; the scoring service takes strings. *)
Definition pair_of (h : store) (query : text) (doc : loc)
    : result (text * text) :=
  v ← getitem h doc "text";
  match v with
  | VStr t => Ok (query, t)
  | _ => Raise TypeError
  end.

Fixpoint traverse {A B} (f : A → result B) (l : list A) : result (list B) :=
  match l with
  | [] => Ok []
  | x :: rest => y ← f x; ys ← traverse f rest; Ok (y :: ys)
  end.

(** [for doc, score in zip(documents, scores): doc["rerank_score"] = ..] *)
Definition write_scores (h : store) (documents : list loc)
    (scores : list Q) : store :=
  foldl (fun h ds => setitem h ds.1 "rerank_score" (VFloat (round4 ds.2)))
        h (zip documents scores).

(** The sort key [d["rerank_score"]]; the key is a float. *)
Definition sort_key (h : store) (doc : loc) : result (Q * loc) :=
  v ← getitem h doc "rerank_score";
  match v with
  | VFloat q => Ok (q, doc)
  | _ => Raise TypeError
  end.

(** [x] goes before the first element whose key is not above its own. *)
Fixpoint insert_desc {A} (x : Q * A) (l : list (Q * A)) : list (Q * A) :=
  match l with
  | [] => [x]
  | y :: rest =>
      if Qgtb y.1 x.1 then y :: insert_desc x rest else x :: l
  end.

(** [sorted(.., reverse=True)] on keyed elements: descending keys, and
    elements with equal keys in their original order. *)
Definition sorted_desc {A} (l : list (Q * A)) : list (Q * A) :=
  foldr insert_desc [] l.

(** The key of [x] is not below the key of [y]. *)
Definition above {A} (x y : Q * A) : Prop := (y.1 <= x.1)%Q.

Definition rerank (r : Reranker) (h : store) (query : text)
    (documents : list loc) (top_k : Z) : result outcome :=
  match documents, _model r with
  | [], _ => Ok (mkOutcome [] h [])
  | _, None => Ok (mkOutcome [] h (slice_to top_k documents))
  | _, Some m =>
      pairs ← traverse (pair_of h query) documents;
      let scores := predict m pairs in
      let h' := write_scores h documents scores in
      keyed ← traverse (sort_key h') documents;
      let ranked := (sorted_desc keyed).*2 in
      Ok (mkOutcome [pairs] h' (slice_to top_k ranked))
  end.

(** The [rerank_score] a dict of the store carries, if any. *)
Definition rerank_score (h : store) (doc : loc) : option Q :=
  match h !! doc ≫= (.!! "rerank_score") with
  | Some (VFloat q) => Some q
  | _ => None
  end.

(** Every candidate is a dict of the store with a string under
    ["text"]. *)
Definition well_formed (h : store) (documents : list loc) : Prop :=
  ∀ doc, doc ∈ documents →
    ∃ d t, h !! doc = Some d ∧ d !! "text" = Some (VStr t).

(** Descending scores along a returned list. *)
Definition descending (h : store) (l : list loc) : Prop :=
  ∀ i j a b qa qb, (i < j)%nat →
    l !! i = Some a → l !! j = Some b →
    rerank_score h a = Some qa → rerank_score h b = Some qb →
    (qb <= qa)%Q.

(** The string a dict holds under ["text"], the empty one if none. *)
Definition text_of (h : store) (doc : loc) : text :=
  match h !! doc ≫= (.!! "text") with
  | Some (VStr t) => t
  | _ => []
  end.

(** The score the service gives a candidate. *)
Definition stored_score_raw (m : scorer) (h : store) (query : text)
    (doc : loc) : Q :=
  m query (text_of h doc).

(** The same score as it is stored. *)
Definition stored_score (m : scorer) (h : store) (query : text) (doc : loc)
    : Q :=
  round4 (m query (text_of h doc)).

(** A scorer and two hits to run [rerank] on. *)
Definition by_length : scorer := fun _ t => inject_Z (Z.of_nat (length t)).

Definition two_hits : store :=
  {[ 1%positive := {[ "text" := VStr (txt "ab") ]};
     2%positive := {[ "text" := VStr (txt "abcd") ]} ]}.

Definition two_candidates : list loc := [1%positive; 2%positive].

Definition length_reranker : Reranker :=
  {| model_name := "cross-encoder/ms-marco-MiniLM-L-6-v2";
     _model := Some by_length |}.

(** The re-ranker whose model failed to load. *)
Definition fallback_reranker : Reranker :=
  {| model_name := "cross-encoder/ms-marco-MiniLM-L-6-v2";
     _model := None |}.

End Rerank.

(** ** utils/vector_store.py *)

Module Store.

(** An entry of the collection: the document and its metadata, as
    [add_documents] stores them. *)
Record entry : Set := mkEntry {
  document : text;
  metadata : Chunker.Metadata
}.

(** The collection, keyed by entry id. *)
Abbreviation collection := (gmap string entry).

(** [collection.count()] *)
Definition count (c : collection) : Z := Z.of_nat (size c).

Definition has_source (src : string) (e : entry) : Prop :=
  Chunker.source (metadata e) = src.

#[global] Instance has_source_dec src e : Decision (has_source src e).
Proof. unfold has_source. apply _. Defined.

(** [collection.get(where={"source": source})["ids"]] *)
Definition get_ids (c : collection) (src : string) : list string :=
  (map_to_list (filter (fun kv => has_source src kv.2) c)).*1.

(** [collection.delete(ids=ids)] *)
Definition delete_ids (c : collection) (ids : list string) : collection :=
  foldr delete c ids.

Definition delete_source (c : collection) (src : string)
    : result collection :=
  let ids := get_ids c src in
  match ids with
  | [] => Raise ValueError
  | _ => Ok (delete_ids c ids)
  end.






Record hit : Set := mkHit {
  hit_text : text;
  hit_metadata : Chunker.Metadata;
  hit_score : Q
}.



(** The entries a filter lets through. *)
Definition matches (w : option string) (e : entry) : Prop :=
  match w with
  | Some src => has_source src e
  | None => True
  end.

#[global] Instance matches_dec w e : Decision (matches w e).
Proof. destruct w; apply _. Defined.



Definition two_entries : collection :=
  {[ "a.txt_chunk_0"%string :=
       mkEntry (txt "alpha.") (Chunker.mkMetadata "a.txt" 0 6);
     "b.txt_chunk_0"%string :=
       mkEntry (txt "beta.") (Chunker.mkMetadata "b.txt" 0 5) ]}.

End Store.

(** ** utils/memory.py: the views on a session *)

Module MemoryViews.
Import Memory.

Definition newline : text := ["010"%char].

(** ["Human" if turn["role"] == "user" else "Assistant"] *)
Definition role_label (t : Turn) : text :=
  if decide (role t = "user"%string) then txt "Human" else txt "Assistant".

(** [f"{role}: {content}"] with [content = turn["content"][:500]] *)
Definition render_turn (t : Turn) : text :=
  role_label t ++ txt ": " ++ slice_to 500 (txt (content t)).

(** ["\n".join(lines)] *)
Definition render (history : list Turn) : text :=
  join newline (render_turn <$> history).

Definition truncation_marker : text := txt "...[truncated]" ++ newline.

Definition get_formatted_context (m : ConversationMemory)
    (session_id : string) (max_chars : Z) : text :=
  match get_history m session_id with
  | [] => []
  | history =>
      let full_context := render history in
      if max_chars <? Z.of_nat (length full_context)
      then truncation_marker ++ slice_from (- max_chars) full_context
      else full_context
  end.




(** A memory with one session of three turns, and a fresh one. *)
Definition three_turns : ConversationMemory :=
  {| max_turns := 10;
     _sessions :=
       {[ "s"%string :=
            {| maxlen := 20;
               items := [ mkTurn "user" "hi" "t1";
                          mkTurn "assistant" "hello there" "t2";
                          mkTurn "user" "bye" "t3" ] |} ]} |}.

End MemoryViews.

(** ** utils/document_processor.py: what the chunks look like *)

Module ChunkShape.
Import Chunker.

(** A string without whitespace at either end. *)
Definition trimmed (t : text) : Prop :=
  (∀ c, head t = Some c → is_space c = false) ∧
  (∀ c, last t = Some c → is_space c = false).

(** A string made of whitespace only; the empty string is one. *)
Definition blank (t : text) : Prop := Forall (λ c, is_space c = true) t.

(** The shape of an emitted chunk. *)
Definition shaped (src : string) (c : DocumentChunk) : Prop :=
  chunk_text c ≠ [] ∧ trimmed (chunk_text c) ∧
  source (metadata c) = src ∧
  char_count (metadata c) = Z.of_nat (length (chunk_text c)).

(** Where the loop stands after [k] sentences: before the first one
    nothing is there; afterwards the buffer is not empty and fewer than
    [k] chunks are closed. *)
Definition counted (k : nat) (st : loop_state) : Prop :=
  (k = 0%nat ∧ chunks st = [] ∧ current st = []) ∨
  (current st ≠ [] ∧ (length (chunks st) + 1 ≤ k)%nat).

(** The loop has closed a chunk or holds a sentence that shows. *)
Definition visible (st : loop_state) : Prop :=
  chunks st ≠ [] ∨ Exists (λ s, ¬ blank s) (current st).

(** The loop while no cut has happened: no chunk, the sentences read in
    the buffer, and [curr_len] one above their joined length. *)
Definition uncut (read : list text) : loop_state :=
  {| chunks := [];
     current := read;
     curr_len := match read with
                 | [] => 0
                 | _ => Z.of_nat (length (join space read)) + 1
                 end |}.

End ChunkShape.

(** ** utils/evaluator.py: what the tokens look like *)

Module TokenShape.
Import Evaluator.

(** What the scan holds is made of letters [a-z]. *)
Definition scan_ok (st : scan) : Prop :=
  match st with
  | Letters run => Forall (λ c, is_az c = true) run
  | _ => True
  end.

(** A token: two letters [a-z] or more. *)
Definition word_token (tok : text) : Prop :=
  (2 ≤ length tok)%nat ∧ Forall (λ c, is_az c = true) tok.

End TokenShape.

(** ** utils/reranker.py: ties and missing keys *)

Module RerankOrder.
Import Rerank.

(** The elements whose key is [q]. *)
Definition scored {A} (q : Q) (x : Q * A) : Prop := (x.1 == q)%Q.

#[global] Instance scored_dec {A} q (x : Q * A) : Decision (scored q x).
Proof. unfold scored. apply Qeq_dec. Defined.

(** The candidates to which a scoring [k] gives [q]. *)
Definition scored_by (k : loc → Q) (q : Q) (doc : loc) : Prop :=
  (k doc == q)%Q.

#[global] Instance scored_by_dec k q doc : Decision (scored_by k q doc).
Proof. unfold scored_by. apply Qeq_dec. Defined.

(** The store after the scores of [documents] are written. *)
Definition rescored (m : scorer) (h : store) (query : text)
    (documents : list loc) : store :=
  write_scores h documents (stored_score_raw m h query <$> documents).

(** Every candidate is a dict of the store, and what a candidate has
    under ["text"] is a string. *)
Definition text_if_any (h : store) (documents : list loc) : Prop :=
  ∀ doc, doc ∈ documents →
    ∃ d, h !! doc = Some d ∧
         ∀ v, d !! "text" = Some v → ∃ t, v = VStr t.

(** Three hits, the first and the last with texts of one length, and a
    hit without a text. *)
Definition three_hits : store :=
  {[ 1%positive := {[ "text" := VStr (txt "ab") ]};
     2%positive := {[ "text" := VStr (txt "abcd") ]};
     3%positive := {[ "text" := VStr (txt "cd") ]} ]}.

Definition three_candidates : list loc := [1%positive; 2%positive; 3%positive].

Definition textless_hits : store :=
  {[ 1%positive := {[ "text" := VStr (txt "ab") ]};
     2%positive := {[ "score" := VFloat 1 ]} ]}.

End RerankOrder.

(** ** utils/vector_store.py: ingestion and listing *)

Module StoreViews.
Import Store.

(** [f"{source}_chunk_{c.metadata['chunk_idx']}"] *)
Definition chunk_id (source : string) (ch : Chunker.DocumentChunk) : string :=
  source +:+ "_chunk_" +:+ pretty (Chunker.chunk_idx (Chunker.metadata ch)).

(** The document and the metadata stored for a chunk. *)
Definition entry_of (ch : Chunker.DocumentChunk) : entry :=
  {| document := Chunker.chunk_text ch; metadata := Chunker.metadata ch |}.

(** The [ids], [documents] and [metadatas] of the upsert, id by id. *)
Definition batch_of (source : string) (chunks : list Chunker.DocumentChunk)
    : list (string * entry) :=
  (λ ch, (chunk_id source ch, entry_of ch)) <$> chunks.

(** [collection.upsert]: for a collection and a batch, the collection
    afterwards or an exception. *)
Definition upsert_service : Type :=
  collection → list (string * entry) → result collection.

Definition add_documents (ups : upsert_service) (c : collection)
    (chunks : list Chunker.DocumentChunk) (source : string)
    : result collection :=
  match chunks with
  | [] => Ok c
  | _ => ups c (batch_of source chunks)
  end.

(** The contract of the service for a batch whose ids are distinct:
    every id of the batch holds its entry afterwards, and the other ids
    hold what they held. *)
Definition upserts (ups : upsert_service) : Prop :=
  ∀ c batch, NoDup batch.*1 →
    ups c batch = Ok (list_to_map batch ∪ c).

(** A service that stores such a batch and rejects the others. *)
Definition strict_upsert : upsert_service := fun c batch =>
  if decide (NoDup batch.*1) then Ok (list_to_map batch ∪ c)
  else Raise ValueError.

(** The sources of the stored entries:
    [{m.get("source", "unknown") for m in results["metadatas"]}]. *)
Definition sources (c : collection) : gset string :=
  list_to_set ((λ kv, Chunker.source (metadata kv.2)) <$> map_to_list c).

(** [sorted(sources)], strings being compared character by character,
    and [[]] at once for an empty collection. *)
Definition list_sources (c : collection) : list string :=
  if count c =? 0 then [] else merge_sort String.le (elements (sources c)).

(** [collection.count()] *)
Definition get_doc_count (c : collection) : Z := count c.

End StoreViews.

(** ** app.py: the upload filter *)

Module App.

Definition dot : ascii := "."%char.

(** [filename.rsplit(".", 1)[1]] when there is a dot: what follows the
    last one. *)
Fixpoint after_last_dot (filename : text) : option text :=
  match filename with
  | [] => None
  | c :: rest =>
      match after_last_dot rest with
      | Some ext => Some ext
      | None => if decide (c = dot) then Some rest else None
      end
  end.

(** [app.config["ALLOWED_EXTENSIONS"]] *)
Definition ALLOWED_EXTENSIONS : list text := [txt "pdf"; txt "txt"].

(** ["." in filename and
     filename.rsplit(".", 1)[1].lower() in ALLOWED_EXTENSIONS] *)
Definition allowed_file (filename : text) : bool :=
  match after_last_dot filename with
  | Some ext => bool_decide (Evaluator.lower ext ∈ ALLOWED_EXTENSIONS)
  | None => false
  end.

End App.

(** ** utils/rag_chain.py: the context handed to the generator *)

Module Chain.

Definition no_documents : text :=
  txt "No relevant documents found in the knowledge base.".

(** ["\n\n---\n\n"] *)
Definition delimiter : text :=
  MemoryViews.newline ++ MemoryViews.newline ++ txt "---"
  ++ MemoryViews.newline ++ MemoryViews.newline.

(** A document as [_build_context] reads it: [doc["text"]] and
    [doc["metadata"].get("source")], a metadata dict being free to lack
    the key. *)
Record document : Set := mkDocument {
  doc_text : text;
  doc_source : option string
}.

(** A hit of [similarity_search] always carries a source. *)
Definition of_hit (h : Store.hit) : document :=
  {| doc_text := Store.hit_text h;
     doc_source := Some (Chunker.source (Store.hit_metadata h)) |}.

(** [f"[{i}] Source: {src}\n{doc['text']}"] with
    [src = doc["metadata"].get("source", "Unknown")]. *)
Definition render_part (i : Z) (doc : document) : text :=
  txt "[" ++ txt (pretty i) ++ txt "] Source: "
  ++ txt (default "Unknown"%string (doc_source doc))
  ++ MemoryViews.newline ++ doc_text doc.

(** [enumerate(documents, 1)] *)
Definition _build_context (documents : list document) : text :=
  match documents with
  | [] => no_documents
  | _ =>
      join delimiter
        (imap (λ i doc, render_part (Z.of_nat (S i)) doc) documents)
  end.

(** [t] occurs in [s]. *)
Definition occurs_in (t s : text) : Prop := ∃ before after, s = before ++ t ++ after.

End Chain.

(** ** utils/document_processor.py: cleaning the text that was read

    [_clean_text] reads whatever the file held and writes U+2026, which
    is no Latin-1 character: here a [str] is the list of its code
    points. *)

Module Cleaner.

Definition ustr : Set := list N.

Definition between (lo hi c : N) : bool := ((lo <=? c) && (c <=? hi))%N.

(** The class [\s] of a [str] pattern, which is also what [str.strip()]
    removes. *)
Definition is_whitespace (c : N) : bool :=
  between 9 13 c || between 28 32 c || (c =? 133)%N || (c =? 160)%N
  || (c =? 5760)%N || between 8192 8202 c || (c =? 8232)%N
  || (c =? 8233)%N || (c =? 8239)%N || (c =? 8287)%N || (c =? 12288)%N.

(** The class [[^\x00-\x7F]]. *)
Definition non_ascii (c : N) : bool := (127 <? c)%N.

Definition SPACE : N := 32.
Definition DOT : N := 46.
Definition ELLIPSIS : N := 8230.

(** The pattern [\.]. *)
Definition is_dot (c : N) : bool := (c =? DOT)%N.

(** What becomes of a finished run, held last character first: the
    replacement when the pattern matches it, the run itself when it is
    too short to match. *)
Definition flush (least : nat) (repl run : ustr) : ustr :=
  match run with
  | [] => []
  | _ => if (least <=? length run)%nat then repl else reverse run
  end.

(** [re.sub(p, repl, s)] for a pattern [p] that matches [least] or more
    characters of the class [cls], greedily: every maximal run of such
    characters that is long enough is replaced. *)
Fixpoint sub_runs (cls : N → bool) (least : nat) (repl run s : ustr)
    : ustr :=
  match s with
  | [] => flush least repl run
  | c :: rest =>
      if cls c then sub_runs cls least repl (c :: run) rest
      else flush least repl run ++ c :: sub_runs cls least repl [] rest
  end.

Fixpoint lstrip (s : ustr) : ustr :=
  match s with
  | c :: rest => if is_whitespace c then lstrip rest else s
  | [] => []
  end.

(** [s.strip()] *)
Definition strip (s : ustr) : ustr :=
  reverse (lstrip (reverse (lstrip s))).

Definition _clean_text (text : ustr) : ustr :=
  let text := sub_runs is_whitespace 1 [SPACE] [] text in
  let text := sub_runs non_ascii 1 [SPACE] [] text in
  let text := sub_runs is_dot 3 [ELLIPSIS] [] text in
  strip text.

(** The code points of a Latin-1 literal. *)
Definition points (s : string) : ustr := N_of_ascii <$> txt s.

(** A character [_clean_text] can leave in place. *)
Definition clean_char (c : N) : Prop :=
  c = ELLIPSIS ∨ ((c < 128)%N ∧ (is_whitespace c = true → c = SPACE)).

(** No three dots in a row after [k] dots just read. *)
Fixpoint dots_below_three (k : nat) (s : ustr) : bool :=
  match s with
  | [] => true
  | c :: rest =>
      if is_dot c then (k <? 2)%nat && dots_below_three (S k) rest
      else dots_below_three 0 rest
  end.

End Cleaner.

(** * Properties *)

(** ** ConversationMemory *)

Section MemoryFacts.
Import Memory.

Lemma most_recent_length {A} (n : nat) (l : list A) :
  (length (most_recent n l) ≤ n)%nat.
Proof. unfold most_recent. rewrite length_drop. lia. Qed.

(** Appending to a window already cut to [n] and cutting again is
    cutting the whole sequence once. *)
Lemma most_recent_snoc {A} (n : nat) (l : list A) (x : A) :
  most_recent n (most_recent n l ++ [x]) = most_recent n (l ++ [x]).
Proof.
  unfold most_recent.
  rewrite !length_app, length_drop. cbn [length].
  destruct (decide (length l ≤ n)%nat) as [Hle|Hgt].
  - replace (length l - n)%nat with 0%nat by lia. cbn [drop].
    f_equal. lia.
  - replace (length l - (length l - n) + 1 - n)%nat with 1%nat by lia.
    replace (length l + 1 - n)%nat with ((length l - n) + 1)%nat by lia.
    rewrite <- drop_drop.
    f_equal. rewrite drop_app_le by lia. done.
Qed.

Lemma appended_snoc sid calls c :
  appended sid (calls ++ [c]) =
    if decide (c_session c = sid)
    then appended sid calls ++ [mkTurn (c_role c) (c_content c) (c_now c)]
    else appended sid calls.
Proof.
  unfold appended. rewrite filter_app, fmap_app.
  rewrite filter_cons, filter_nil.
  case_decide; cbn; [done | by rewrite app_nil_r].
Qed.

Lemma run_snoc m calls c :
  run m (calls ++ [c]) = step (run m calls) c.
Proof. unfold run. by rewrite foldl_app. Qed.

Lemma tracks_init n : tracks n [] (init n).
Proof. split; [done|]. intros sid. cbn. by rewrite lookup_empty. Qed.

(** The constructor call of [add_turn], by the value of [max_turns]. *)
Lemma deque_new_cases (n : Z) :
  deque_new (n * 2) =
    if decide (0 ≤ n < 2 ^ 62)
    then Ok {| maxlen := Z.to_nat (n * 2); items := [] |}
    else if decide (- 2 ^ 62 ≤ n < 0) then Raise ValueError
    else Raise OverflowError.
Proof.
  unfold deque_new, PY_SSIZE_T_MIN, PY_SSIZE_T_MAX.
  destruct (n * 2 <? - 2 ^ 63) eqn:E1; cbn [orb].
  { apply Z.ltb_lt in E1. repeat case_decide; try done; lia. }
  apply Z.ltb_ge in E1.
  destruct (2 ^ 63 - 1 <? n * 2) eqn:E2.
  { apply Z.ltb_lt in E2. repeat case_decide; try done; lia. }
  apply Z.ltb_ge in E2.
  destruct (n * 2 <? 0) eqn:E3.
  { apply Z.ltb_lt in E3. repeat case_decide; try done; lia. }
  apply Z.ltb_ge in E3. repeat case_decide; try done; lia.
Qed.

Lemma add_turn_tracks n calls m c :
  0 ≤ n < 2 ^ 62 → tracks n calls m →
  ∃ m', add_turn m (c_session c) (c_role c) (c_content c) (c_now c) = Ok m'
        ∧ tracks n (calls ++ [c]) m'.
Proof.
  intros Hn [Hmax Hm]. unfold add_turn.
  pose proof (Hm (c_session c)) as Hc.
  destruct (_sessions m !! c_session c) as [d|] eqn:Hd; cbn.
  - eexists; split; [done|]. split; [done|]. intros sid. cbn.
    rewrite appended_snoc, lookup_insert. destruct Hc as [Hlen Hit].
    case_decide as Heq.
    + subst sid. cbn. split; [done|].
      rewrite Hit. apply (most_recent_snoc (maxlen d)).
    + specialize (Hm sid). by destruct (_sessions m !! sid).
  - rewrite Hmax, deque_new_cases, decide_True by done. cbn.
    eexists; split; [done|]. split; [done|]. intros sid. cbn.
    rewrite appended_snoc, lookup_insert.
    case_decide as Heq.
    + subst sid. cbn. split; [done|]. by rewrite Hc.
    + specialize (Hm sid). by destruct (_sessions m !! sid).
Qed.

Lemma run_tracks n calls :
  0 ≤ n < 2 ^ 62 → ∃ m, run (init n) calls = Ok m ∧ tracks n calls m.
Proof.
  intros Hn. induction calls as [|c calls IH] using rev_ind.
  - exists (init n). split; [done | apply tracks_init].
  - destruct IH as (m & Hrun & Htr).
    destruct (add_turn_tracks n calls m c Hn Htr) as (m' & Hadd & Htr').
    exists m'. split; [|done].
    rewrite run_snoc, Hrun. exact Hadd.
Qed.

(** C1.  On a memory created with a bound [0 ≤ max_turns < 2^62] (the
    values for which [deque(maxlen=2 * max_turns)] can be built), every
    sequence of [add_turn] calls (any session ids, roles, contents and
    clock readings) succeeds, and after each of them (after the first [k]
    calls, for every [k]) the history of every session has at most
    [2 * max_turns] turns and is exactly the [2 * max_turns] most recent
    turns appended to that session, oldest first. *)
Theorem add_turn_sliding_window (n : Z) (calls : list call) (k : nat) :
  0 ≤ n < 2 ^ 62 →
  ∃ m, run (init n) (take k calls) = Ok m ∧
    ∀ sid,
      Z.of_nat (length (get_history m sid)) ≤ 2 * n ∧
      get_history m sid =
        most_recent (Z.to_nat (2 * n)) (appended sid (take k calls)).
Proof.
  intros Hn.
  destruct (run_tracks n (take k calls) Hn) as (m & Hrun & _ & Htr).
  exists m. split; [done|]. intros sid. specialize (Htr sid).
  unfold get_history.
  destruct (_sessions m !! sid) as [d|].
  - destruct Htr as [Hlen Hit]. rewrite Hit, Hlen.
    replace (n * 2) with (2 * n) by lia. split; [|done].
    pose proof (most_recent_length (Z.to_nat (2 * n))
                  (appended sid (take k calls))). lia.
  - rewrite Htr. cbn. split; [lia|done].
Qed.

Lemma add_turn_sliding_window_witness :
  ∃ m, run (init 1) (take 4 demo_calls) = Ok m ∧
    ∀ sid,
      Z.of_nat (length (get_history m sid)) ≤ 2 * 1 ∧
      get_history m sid =
        most_recent (Z.to_nat (2 * 1)) (appended sid (take 4 demo_calls)).
Proof. apply (add_turn_sliding_window 1 demo_calls 4). lia. Defined.

(** The window on a concrete run: the oldest turn of [s] is gone. *)
Example add_turn_evicts_oldest :
  (λ m, get_history m "s") <$>
    (match run (init 1) demo_calls with Ok m => Some m | _ => None end)
  = Some [mkTurn "assistant" "a1" "t2"; mkTurn "user" "q2" "t4"].
Proof. vm_compute. reflexivity. Qed.

(** A negative bound makes the deque constructor raise, and so does a
    bound whose double does not fit a [Py_ssize_t]. *)
Example add_turn_negative_bound :
  add_turn (init (-1)) "s" "user" "q" "t" = Raise ValueError.
Proof. reflexivity. Qed.

Example add_turn_bound_out_of_range :
  add_turn (init (2 ^ 62)) "s" "user" "q" "t" = Raise OverflowError ∧
  add_turn (init (- 2 ^ 62)) "s" "user" "q" "t" = Raise ValueError ∧
  add_turn (init (- 2 ^ 62 - 1)) "s" "user" "q" "t" = Raise OverflowError.
Proof. by vm_compute. Qed.

(** C10.  [clear] is total (a function, no exception); on an unknown
    session it leaves the memory as it is; clearing twice is clearing
    once; and after it the session has the empty history and is unknown
    again. *)
Theorem clear_idempotent_total (m : ConversationMemory) (sid : string) :
  (_sessions m !! sid = None → clear m sid = m) ∧
  clear (clear m sid) sid = clear m sid ∧
  get_history (clear m sid) sid = [] ∧
  _sessions (clear m sid) !! sid = None.
Proof.
  unfold clear, get_history. cbn. repeat split.
  - intros Hnone. destruct m as [n s]. cbn in *. f_equal.
    by apply delete_id.
  - f_equal. apply delete_delete_eq.
  - by rewrite lookup_delete_eq.
  - by rewrite lookup_delete_eq.
Qed.

End MemoryFacts.

(** ** Strings and slices *)

Section StringFacts.

Lemma lstrip_length (s : text) : (length (lstrip s) ≤ length s)%nat.
Proof.
  induction s as [|c s IH]; cbn; [lia|].
  destruct (is_space c); cbn; lia.
Qed.

Lemma strip_length (s : text) : (length (strip s) ≤ length s)%nat.
Proof.
  unfold strip. rewrite length_reverse.
  etransitivity; [apply lstrip_length|].
  rewrite length_reverse. apply lstrip_length.
Qed.

Lemma join_snoc_length (l : list text) (s : text) :
  length (join space (l ++ [s])) =
    match l with
    | [] => length s
    | _ => (length (join space l) + 1 + length s)%nat
    end.
Proof.
  induction l as [|a l IH]; [done|].
  destruct l as [|b l].
  - cbn. rewrite length_app. cbn. lia.
  - change (length (a ++ space ++ join space ((b :: l) ++ [s])) =
            (length (a ++ space ++ join space (b :: l)) + 1 + length s)%nat).
    rewrite !length_app, IH. cbn [length space]. lia.
Qed.

(** A tail slice by a positive count is at most that long. *)
Lemma slice_from_neg_length {A} (n : Z) (l : list A) :
  1 ≤ n → Z.of_nat (length (slice_from (- n) l)) ≤ n.
Proof.
  intros Hn. unfold slice_from. rewrite length_drop.
  destruct (- n <? 0) eqn:E; lia.
Qed.

(** [l[-0:]] is [l[0:]]: the whole list. *)
Lemma slice_from_zero {A} (l : list A) : slice_from (- 0) l = l.
Proof. unfold slice_from. cbn. by destruct (length l). Qed.

Lemma slice_to_length {A} (n : Z) (l : list A) :
  0 ≤ n →
  Z.of_nat (length (slice_to n l)) = Z.min n (Z.of_nat (length l)).
Proof.
  intros Hn. unfold slice_to. rewrite length_take.
  destruct (n <? 0) eqn:E; lia.
Qed.

(** Only the last piece of a split can be the empty string. *)
Lemma split_scan_pieces (skipping : bool) (cur s : text) :
  ∃ pieces last,
    split_scan skipping cur s = pieces ++ [last] ∧
    Forall (λ p, p ≠ []) pieces.
Proof.
  revert skipping cur.
  induction s as [|c s IH]; intros skipping cur; cbn.
  - by exists [], (reverse cur).
  - destruct skipping.
    + destruct (is_space c); apply IH.
    + destruct (is_space c && from_option is_terminator false (head cur))
        eqn:E; [|apply IH].
      destruct (IH true []) as (pieces & last & -> & Hne).
      exists (reverse cur :: pieces), last. split; [done|].
      constructor; [|done].
      destruct cur as [|a cur]; [by rewrite andb_false_r in E|].
      rewrite reverse_cons. by destruct (reverse cur).
Qed.

End StringFacts.

(** ** The chunker *)

Section ChunkerFacts.
Import Chunker.

Lemma emit_numbered src cs t : numbered cs → numbered (emit src cs t).
Proof.
  unfold numbered, emit. intros H. destruct t as [|a t]; [done|].
  rewrite length_app, fmap_app, H. cbn [length].
  rewrite seq_app, fmap_app. done.
Qed.

Lemma split_step_numbered p src st s :
  numbered (chunks st) → numbered (chunks (split_step p src st s)).
Proof.
  intros H. unfold split_step. cbn.
  destruct (_ && _); cbn; [by apply emit_numbered | done].
Qed.

Lemma split_loop_numbered p src sentences :
  numbered (chunks (split_loop p src sentences)).
Proof.
  unfold split_loop.
  induction sentences as [|s l IH] using rev_ind; [done|].
  rewrite foldl_app. cbn [foldl]. by apply split_step_numbered.
Qed.

(** C8.  For every processor configuration, text and source, the
    [chunk_idx] values of the chunks one [_split_text] call returns are
    [0, 1, .., n - 1] in output order: chunk [i] carries index [i]. *)
Theorem split_text_chunk_idx_contiguous
    (p : DocumentProcessor) (t : text) (src : string) :
  (λ c, chunk_idx (metadata c)) <$> _split_text p t src =
    Z.of_nat <$> seq 0 (length (_split_text p t src)).
Proof.
  unfold _split_text, flush.
  pose proof (split_loop_numbered p src (re_split_sentences t)) as H.
  destruct (current _); [exact H|].
  by apply (emit_numbered src).
Qed.

End ChunkerFacts.

Section ChunkerBounds.
Import Chunker.

Variable p : DocumentProcessor.
Variable src : string.
Variable sentences : list text.
Hypothesis overlap_pos : 1 ≤ chunk_overlap p.
Hypothesis overlap_small : chunk_overlap p < chunk_size p.

Lemma overlap_text_length (t : text) :
  Z.of_nat (length (overlap_text p t)) ≤ chunk_overlap p.
Proof. by apply slice_from_neg_length. Qed.

Lemma emit_within cs t :
  chunks_within p sentences cs →
  within p sentences (Z.of_nat (length t)) →
  chunks_within p sentences (emit src cs t).
Proof.
  intros Hcs Ht. unfold emit. destruct t as [|a t]; [done|].
  apply Forall_app. split; [done|]. by constructor.
Qed.

Lemma within_le n k :
  k ≤ n → within p sentences n → within p sentences k.
Proof. intros Hle (s & Hs & Hn). exists s. split; [done|lia]. Qed.

(** The chunk closed from a buffer that is within the bound is within
    the bound: [strip] only shortens. *)
Lemma closed_within st :
  within p sentences (joined_len st) →
  within p sentences
    (Z.of_nat (length (strip (join space (current st))))).
Proof.
  apply within_le. unfold joined_len.
  pose proof (strip_length (join space (current st))). lia.
Qed.

Lemma loop_inv_buffer st :
  loop_inv p sentences st → buffer_within p sentences st.
Proof.
  intros (Hcs & [[Hnil _] | [(_ & _ & Hw) | (_ & _ & s0 & Hs0 & _ & Hb)]]).
  - split; [done|]. by intros [].
  - done.
  - split; [done|]. intros _. by exists s0.
Qed.

(** One iteration keeps the buffer within the bound; the sentence may be
    the empty one. *)
Lemma split_step_buffer st s :
  s ∈ sentences → loop_inv p sentences st →
  buffer_within p sentences (split_step p src st s).
Proof.
  intros Hs Hinv.
  pose proof (loop_inv_buffer st Hinv) as [Hcs Hbuf].
  destruct Hinv as [_ Hinv].
  unfold split_step, buffer_within, joined_len.
  destruct (_ && _) eqn:Hcut; cbn [chunks current curr_len].
  - apply andb_true_iff in Hcut as [_ Hne].
    apply negb_true_iff, bool_decide_eq_false in Hne.
    split; [apply emit_within; [done|]; apply closed_within; auto|].
    intros _. exists s. split; [done|].
    rewrite join_snoc_length.
    pose proof (overlap_text_length (strip (join space (current st)))).
    cbn [join]. lia.
  - split; [done|]. intros _. rewrite join_snoc_length.
    destruct Hinv as [[Hnil _] | [(Hne & Hj & Hw) | (Hne & Hj & s0 & Hs0 & Hpos & Hb)]].
    + rewrite Hnil. exists s. split; [done|lia].
    + destruct (current st) as [|a l] eqn:Hc; [done|].
      apply andb_false_iff in Hcut as [Hcut | Hcut];
        [|by rewrite bool_decide_eq_false_2 in Hcut].
      apply Z.ltb_ge in Hcut. unfold joined_len in Hj. rewrite Hc in Hj.
      exists s. split; [done|]. lia.
    + destruct (current st) as [|a l] eqn:Hc; [done|].
      apply andb_false_iff in Hcut as [Hcut | Hcut];
        [|by rewrite bool_decide_eq_false_2 in Hcut].
      apply Z.ltb_ge in Hcut. unfold joined_len in Hj. rewrite Hc in Hj.
      exists s0. split; [done|]. lia.
Qed.

(** One iteration on a sentence that is not empty keeps the loop
    invariant. *)
Lemma split_step_inv st s :
  s ∈ sentences → s ≠ [] → loop_inv p sentences st →
  loop_inv p sentences (split_step p src st s).
Proof.
  intros Hs Hne Hinv.
  destruct (split_step_buffer st s Hs Hinv) as [Hcs' Hbuf'].
  assert (Hlen : 1 ≤ Z.of_nat (length s)) by (destruct s; [done|cbn; lia]).
  split; [done|].
  assert (Hcur : current (split_step p src st s) ≠ []).
  { unfold split_step. cbn. by intros [_ [=]]%app_nil. }
  specialize (Hbuf' Hcur).
  destruct Hinv as [_ Hinv]. revert Hbuf' Hcur.
  unfold split_step, joined_len.
  destruct (_ && _) eqn:Hcut; cbn [chunks current curr_len];
    intros Hbuf' Hcur.
  - right; right. split; [done|]. rewrite join_snoc_length. cbn [join].
    split; [lia|]. exists s. split; [done|]. split; [done|].
    pose proof (overlap_text_length (strip (join space (current st)))).
    lia.
  - rewrite join_snoc_length in *.
    destruct Hinv as [[Hnil Hz] | [(Hc & Hj & Hw) | (Hc & Hj & s0 & Hs0 & Hpos & Hb)]].
    + right; left. rewrite Hnil in *. split; [done|]. split; [lia|done].
    + right; left. destruct (current st) as [|a l] eqn:Hcs; [done|].
      split; [done|]. unfold joined_len in Hj. rewrite Hcs in Hj.
      split; [lia|done].
    + right; right. destruct (current st) as [|a l] eqn:Hcs; [done|].
      split; [done|]. unfold joined_len in Hj. rewrite Hcs in Hj.
      split; [lia|]. exists s0. split; [done|]. split; [done|].
      apply andb_false_iff in Hcut as [Hcut | Hcut];
        [|by rewrite bool_decide_eq_false_2 in Hcut].
      apply Z.ltb_ge in Hcut. lia.
Qed.

Lemma split_loop_inv (read : list text) :
  read ⊆ sentences → Forall (λ s, s ≠ []) read →
  loop_inv p sentences (split_loop p src read).
Proof.
  unfold split_loop.
  induction read as [|s l IH] using rev_ind; intros Hsub Hne.
  - split; [constructor|]. by left.
  - rewrite foldl_app. cbn [foldl].
    apply Forall_app in Hne as [Hl Hs].
    apply split_step_inv.
    + apply Hsub. set_solver.
    + by inversion Hs.
    + apply IH; [set_solver | done].
Qed.

End ChunkerBounds.

Section ChunkerClaims.
Import Chunker.

(** With an overlap of at least one character and below [chunk_size],
    every chunk of [_split_text] exceeds [chunk_size] by no more than the
    length of one sentence of the text, and the overlap carried into the
    next buffer is at most [chunk_overlap] long. *)
Theorem split_text_bounds (p : DocumentProcessor) (t : text) (src : string) :
  1 ≤ chunk_overlap p → chunk_overlap p < chunk_size p →
  (∀ c, c ∈ _split_text p t src →
     char_count (metadata c) = Z.of_nat (length (chunk_text c)) ∧
     ∃ s, s ∈ re_split_sentences t ∧
          char_count (metadata c) ≤ chunk_size p + Z.of_nat (length s)) ∧
  (∀ closed, Z.of_nat (length (overlap_text p closed)) ≤ chunk_overlap p).
Proof.
  intros Hpos Hsmall. split; [|intros; by apply overlap_text_length].
  assert (Hcount : Forall (λ c, char_count (metadata c) =
                                Z.of_nat (length (chunk_text c)))
                     (_split_text p t src)).
  { unfold _split_text, flush.
    assert (Hemit : ∀ cs u,
               Forall (λ c, char_count (metadata c) =
                            Z.of_nat (length (chunk_text c))) cs →
               Forall (λ c, char_count (metadata c) =
                            Z.of_nat (length (chunk_text c)))
                      (emit src cs u)).
    { intros cs u Hcs. unfold emit. destruct u; [done|].
      apply Forall_app. split; [done|]. by constructor. }
    assert (Hloop : Forall (λ c, char_count (metadata c) =
                                 Z.of_nat (length (chunk_text c)))
                      (chunks (split_loop p src (re_split_sentences t)))).
    { unfold split_loop.
      induction (re_split_sentences t) as [|s l IH] using rev_ind;
        [constructor|].
      rewrite foldl_app. cbn [foldl]. unfold split_step at 1. cbn.
      destruct (_ && _); cbn; [by apply Hemit | done]. }
    destruct (current _); [done | by apply Hemit]. }
  assert (Hwithin : chunks_within p (re_split_sentences t)
                      (_split_text p t src)).
  { unfold _split_text, re_split_sentences.
    destruct (split_scan_pieces false [] t) as (pieces & last & Heq & Hne).
    rewrite Heq. unfold split_loop. rewrite foldl_app. cbn [foldl].
    destruct (split_step_buffer p src (pieces ++ [last]) Hpos Hsmall
                (foldl (split_step p src)
                   {| chunks := []; current := []; curr_len := 0 |} pieces)
                last) as [Hcs Hbuf].
    - set_solver.
    - apply (split_loop_inv p src (pieces ++ [last]) Hpos Hsmall);
        [set_solver | done].
    - unfold flush.
      pose proof (closed_within p (pieces ++ [last])
                    (split_step p src
                       (foldl (split_step p src)
                          {| chunks := []; current := []; curr_len := 0 |}
                          pieces) last)) as Hclosed.
      destruct (current _) as [|a l] eqn:Hc; [done|].
      apply emit_within; [done|]. by apply Hclosed, Hbuf. }
  intros c Hc. split.
  - by apply (proj1 (Forall_forall _ _) Hcount).
  - by apply (proj1 (Forall_forall _ _) Hwithin).
Qed.

Lemma split_text_bounds_witness :
  (1 ≤ 2 ∧ 2 < 5) ∧
  (∀ c, c ∈ _split_text (mkProcessor 5 2) three_sentences "f.txt" →
     char_count (metadata c) = Z.of_nat (length (chunk_text c)) ∧
     ∃ s, s ∈ re_split_sentences three_sentences ∧
          char_count (metadata c) ≤ 5 + Z.of_nat (length s)) ∧
  (∀ closed,
     Z.of_nat (length (overlap_text (mkProcessor 5 2) closed)) ≤ 2).
Proof.
  split; [lia|].
  apply (split_text_bounds (mkProcessor 5 2) three_sentences "f.txt");
    cbn; lia.
Defined.

(** C2, at [chunk_size = 5], [chunk_overlap = 0] and the text
    ["abc. def. ghi."]: the slice [chunk_text[-0:]] is the whole closed
    chunk, so each chunk is carried whole into the next one.  The overlap
    carried out of the first chunk has 4 characters, above
    [chunk_overlap = 0], and the third chunk has 14 characters, more
    than [chunk_size] plus the length of any sentence of the text. *)
Theorem split_text_zero_overlap :
  chunk_overlap no_overlap < chunk_size no_overlap ∧
  _split_text no_overlap three_sentences "f.txt" =
    [ chunk_of "abc." "f.txt" 0; chunk_of "abc. def." "f.txt" 1;
      chunk_of "abc. def. ghi." "f.txt" 2 ] ∧
  overlap_text no_overlap (txt "abc.") = txt "abc." ∧
  ¬ (Z.of_nat (length (overlap_text no_overlap (txt "abc.")))
     ≤ chunk_overlap no_overlap) ∧
  ∀ s, s ∈ re_split_sentences three_sentences →
    ¬ (14 ≤ chunk_size no_overlap + Z.of_nat (length s)).
Proof.
  split; [reflexivity|]. split; [reflexivity|]. split; [reflexivity|].
  split.
  - assert (E : Z.of_nat (length (overlap_text no_overlap (txt "abc."))) = 4)
      by reflexivity.
    rewrite E. cbn. lia.
  - intros s Hs.
    assert (E : re_split_sentences three_sentences =
                [txt "abc."; txt "def."; txt "ghi."]) by reflexivity.
    rewrite E in Hs.
    repeat (apply elem_of_cons in Hs as [-> | Hs]; [cbn; lia|]).
    by apply elem_of_nil in Hs.
Qed.

(** Whatever the text, a zero overlap carries the closed chunk whole. *)
Lemma overlap_text_zero (p : DocumentProcessor) (closed : text) :
  chunk_overlap p = 0 → overlap_text p closed = closed.
Proof. intros H. unfold overlap_text. rewrite H. apply slice_from_zero. Qed.

End ChunkerClaims.

(** ** Rounding and ratios *)

Section RoundingFacts.

Lemma round_half_even_bounds (q : Q) (n : Z) :
  (0 <= q)%Q → (q <= inject_Z n)%Q →
  0 ≤ round_half_even q ≤ n.
Proof.
  intros H0 Hn.
  assert (Hf0 : 0 ≤ Qfloor q).
  { pose proof (Qfloor_resp_le 0 q H0) as H. by vm_compute (Qfloor 0) in H. }
  assert (Hfn : Qfloor q ≤ n).
  { pose proof (Qfloor_resp_le q (inject_Z n) Hn) as H.
    by rewrite Qfloor_Z in H. }
  unfold round_half_even.
  destruct (Qcompare_spec (q - inject_Z (Qfloor q)) (1 # 2)) as [E|E|E].
  - destruct (Z.even (Qfloor q)); [lia|].
    destruct (decide (Qfloor q = n)) as [Hq|]; [|lia].
    rewrite Hq in E. exfalso.
    generalize dependent (inject_Z n). intros x Hx E. lra.
  - lia.
  - destruct (decide (Qfloor q = n)) as [Hq|]; [|lia].
    rewrite Hq in E. exfalso.
    generalize dependent (inject_Z n). intros x Hx E. lra.
Qed.

Lemma inject_Z_div_10000 (n : Z) :
  (inject_Z n / inject_Z 10000 == n # 10000)%Q.
Proof. unfold Qeq. cbn. lia. Qed.

(** Rounding to four places keeps a score in the unit interval. *)
Lemma round4_unit (q : Q) :
  (0 <= q <= 1)%Q → (0 <= round4 q <= 1)%Q.
Proof.
  intros [H0 H1]. unfold round4. rewrite inject_Z_div_10000.
  destruct (round_half_even_bounds (q * inject_Z 10000) 10000) as [Ha Hb].
  - change (inject_Z 10000) with (10000 # 1)%Q. lra.
  - change (inject_Z 10000) with (10000 # 1)%Q. lra.
  - unfold Qle. cbn. lia.
Qed.

Lemma ratio_unit (a b : nat) :
  (a ≤ b)%nat → (0 <= ratio a b <= 1)%Q.
Proof.
  intros Hab. unfold ratio.
  destruct b as [|b].
  - assert (a = 0)%nat as -> by lia. cbn. split; by unfold Qle.
  - assert (Hb : (0 < inject_Z (Z.of_nat (S b)))%Q).
    { unfold Qlt. cbn. lia. }
    split.
    + apply Qle_shift_div_l; [done|]. unfold Qle. cbn. lia.
    + apply Qle_shift_div_r; [done|]. unfold Qle. cbn. lia.
Qed.

Lemma Qmin_unit (q : Q) : (0 <= q)%Q → (0 <= Qmin q 1 <= 1)%Q.
Proof.
  intros H. split.
  - apply Q.min_glb; [done | by unfold Qle].
  - apply Q.le_min_r.
Qed.

End RoundingFacts.

(** ** The evaluator *)

Section EvaluatorFacts.
Import Evaluator.

Lemma unit_zero : unit_score 0.
Proof. split; by unfold Qle. Qed.

Lemma unit_half : unit_score (1 # 2).
Proof. split; by unfold Qle. Qed.

Lemma faithfulness_unit answer contexts :
  unit_score (_faithfulness answer contexts).
Proof.
  unfold _faithfulness.
  destruct (_ || _); [apply unit_zero|].
  destruct (bool_decide _); [apply unit_zero|].
  apply round4_unit, ratio_unit, length_filter.
Qed.

Lemma overlap_ratio_unit (a b : gset text) :
  unit_score (ratio (size (a ∩ b)) (size a)).
Proof. apply ratio_unit, subseteq_size, intersection_subseteq_l. Qed.

Lemma answer_relevancy_unit question answer :
  unit_score (_answer_relevancy question answer).
Proof.
  unfold _answer_relevancy.
  destruct (_ || _); [apply unit_zero|].
  destruct (bool_decide _); [apply unit_half|].
  set (q_tokens := token_set question ∖ stopwords).
  destruct (Qmin_unit (ratio (size (q_tokens ∩ token_set answer))
                             (size q_tokens))) as [Hlo Hhi].
  { apply overlap_ratio_unit. }
  apply round4_unit.
  destruct (_ <? _)%nat; [|done].
  split; lra.
Qed.

Lemma context_precision_unit question contexts :
  unit_score (_context_precision question contexts).
Proof.
  unfold _context_precision.
  destruct (bool_decide _); [apply unit_zero|].
  destruct (bool_decide _); [apply unit_half|].
  apply round4_unit, ratio_unit, length_filter.
Qed.

Lemma context_recall_unit contexts ground_truth :
  unit_score (_context_recall contexts ground_truth).
Proof.
  unfold _context_recall.
  destruct (_ || _); [apply unit_zero|].
  destruct (bool_decide _); [apply unit_half|].
  apply round4_unit, Qmin_unit, overlap_ratio_unit.
Qed.

(** The harmonic mean of two fractions of the unit interval. *)
Lemma f1_unit (p r : Q) :
  (0 < p <= 1)%Q → (0 < r <= 1)%Q →
  unit_score (2 * p * r / (p + r)).
Proof.
  intros [Hp0 Hp1] [Hr0 Hr1].
  assert (Hpr : (0 <= p * r)%Q) by (apply Qmult_le_0_compat; lra).
  assert (Hp : (0 <= p * (1 - r))%Q) by (apply Qmult_le_0_compat; lra).
  assert (Hr : (0 <= (1 - p) * r)%Q) by (apply Qmult_le_0_compat; lra).
  split.
  - apply Qle_shift_div_l; [lra|]. lra.
  - apply Qle_shift_div_r; [lra|]. lra.
Qed.

Lemma ratio_pos (a b : nat) : (0 < a)%nat → (0 < b)%nat → (0 < ratio a b)%Q.
Proof.
  intros Ha Hb. unfold ratio. apply Qlt_shift_div_l.
  - unfold Qlt. cbn. lia.
  - unfold Qlt. cbn. lia.
Qed.

Lemma answer_correctness_unit answer ground_truth :
  unit_score (_answer_correctness answer ground_truth).
Proof.
  unfold _answer_correctness.
  destruct (_ || _); [apply unit_zero|].
  set (a := token_counter answer). set (g := token_counter ground_truth).
  destruct (size (a ∩ g) =? 0)%nat eqn:E; [apply unit_zero|].
  apply Nat.eqb_neq in E.
  assert (Ha : (size (a ∩ g) ≤ size a)%nat).
  { apply gmultiset_subseteq_size. multiset_solver. }
  assert (Hg : (size (a ∩ g) ≤ size g)%nat).
  { apply gmultiset_subseteq_size. multiset_solver. }
  apply round4_unit, f1_unit.
  - split; [apply ratio_pos; lia | by apply ratio_unit].
  - split; [apply ratio_pos; lia | by apply ratio_unit].
Qed.

Lemma Qsum_from (acc : Q) (l : list Q) :
  Forall unit_score l →
  (acc <= foldl Qplus acc l <= acc + inject_Z (Z.of_nat (length l)))%Q.
Proof.
  revert acc. induction l as [|x l IH]; intros acc Hall; cbn [foldl length].
  - change (inject_Z (Z.of_nat 0)) with 0%Q. lra.
  - inversion Hall as [|? ? [Hx0 Hx1] Hl]; subst.
    destruct (IH (acc + x)%Q Hl) as [Hlo Hhi].
    rewrite Nat2Z.inj_succ, <- Z.add_1_r, inject_Z_plus.
    change (inject_Z 1) with 1%Q.
    generalize dependent (inject_Z (Z.of_nat (length l))). intros n _ Hhi.
    lra.
Qed.

Lemma mean_unit (l : list Q) : Forall unit_score l → unit_score (mean l).
Proof.
  intros Hall. unfold mean.
  destruct l as [|x l]; [apply unit_zero|].
  destruct (Qsum_from 0 (x :: l) Hall) as [Hlo Hhi].
  fold (Qsum (x :: l)) in Hlo, Hhi.
  assert (Hn : (0 < inject_Z (Z.of_nat (length (x :: l))))%Q).
  { unfold Qlt. cbn. lia. }
  generalize dependent (inject_Z (Z.of_nat (length (x :: l)))).
  intros n Hhi Hn.
  split.
  - apply Qle_shift_div_l; [done|]. lra.
  - apply Qle_shift_div_r; [done|]. lra.
Qed.

Lemma label_of_thresholds (agg : Q) :
  match label_of agg with
  | Excellent => (8 # 10 <= agg)%Q
  | Good => (6 # 10 <= agg)%Q ∧ (agg < 8 # 10)%Q
  | Fair => (4 # 10 <= agg)%Q ∧ (agg < 6 # 10)%Q
  | Poor => (agg < 4 # 10)%Q
  end.
Proof.
  unfold label_of.
  destruct (Qle_bool (8 # 10) agg) eqn:E8;
    [by apply Qle_bool_iff|].
  assert (H8 : (agg < 8 # 10)%Q).
  { apply Qnot_le_lt. intros H%Qle_bool_iff. congruence. }
  destruct (Qle_bool (6 # 10) agg) eqn:E6;
    [split; [by apply Qle_bool_iff | done]|].
  assert (H6 : (agg < 6 # 10)%Q).
  { apply Qnot_le_lt. intros H%Qle_bool_iff. congruence. }
  destruct (Qle_bool (4 # 10) agg) eqn:E4;
    [split; [by apply Qle_bool_iff | done]|].
  apply Qnot_le_lt. intros H%Qle_bool_iff. congruence.
Qed.

Lemma non_null_unit question answer contexts ground_truth :
  Forall unit_score (non_null (evaluate question answer contexts ground_truth)).
Proof.
  unfold non_null, evaluate. cbn.
  repeat constructor;
    try apply faithfulness_unit; try apply answer_relevancy_unit;
    try apply context_precision_unit.
  apply Forall_app. split.
  - destruct (truthy ground_truth); cbn; repeat constructor;
      try apply context_recall_unit.
  - destruct (truthy ground_truth); cbn; repeat constructor;
      try apply answer_correctness_unit.
Qed.

(** C4, as the code has it.  For every question, answer, contexts and
    optional ground truth, the [aggregate] that [evaluate] returns is the
    arithmetic mean of the metric scores that are not null, rounded to
    four decimal places; it lies in [0, 1]; and the quality label is the
    one the thresholds give for that aggregate: at least 0.8 Excellent,
    at least 0.6 Good, at least 0.4 Fair, Poor below. *)
Theorem evaluate_aggregate_rounded_mean
    (question answer : text) (contexts : list text)
    (ground_truth : option text) :
  let s := evaluate question answer contexts ground_truth in
  aggregate s = round4 (mean (non_null s)) ∧
  (0 <= aggregate s <= 1)%Q ∧
  match quality_label s with
  | Excellent => (8 # 10 <= aggregate s)%Q
  | Good => (6 # 10 <= aggregate s)%Q ∧ (aggregate s < 8 # 10)%Q
  | Fair => (4 # 10 <= aggregate s)%Q ∧ (aggregate s < 6 # 10)%Q
  | Poor => (aggregate s < 4 # 10)%Q
  end.
Proof.
  intros s.
  assert (Hagg : aggregate s = round4 (mean (non_null s))) by reflexivity.
  split; [done|]. split.
  - rewrite Hagg. apply round4_unit, mean_unit, non_null_unit.
  - apply label_of_thresholds.
Qed.

(** C4 as stated fails: for the question ["is"] with the answer and the
    context of the faithfulness scenario the three scores are 1, 1/2 and
    1, their mean is 5/6, and the aggregate is 0.8333. *)
Lemma evaluate_aggregate_not_mean :
  (mean (non_null short_question_scores) == 5 # 6)%Q ∧
  (aggregate short_question_scores == 8333 # 10000)%Q ∧
  ¬ (aggregate short_question_scores
     == mean (non_null short_question_scores))%Q.
Proof.
  assert (Hm : (mean (non_null short_question_scores) == 5 # 6)%Q)
    by (vm_compute; reflexivity).
  assert (Ha : (aggregate short_question_scores == 8333 # 10000)%Q)
    by (vm_compute; reflexivity).
  split; [done|]. split; [done|].
  rewrite Ha, Hm. by vm_compute.
Qed.

(** C7.  The answer is one sentence; 4 of its 6 tokens (paris, is,
    capital, france) occur among the tokens of the context, which is
    more than half; so the faithfulness score is 1. *)
Theorem faithfulness_paris :
  _split_sentences paris_answer = [paris_answer] ∧
  size (token_set paris_answer) = 6%nat ∧
  size (token_set paris_answer
        ∩ token_set (lower (join space paris_contexts))) = 4%nat ∧
  (_faithfulness paris_answer paris_contexts == 1)%Q.
Proof.
  split; [reflexivity|]. split; [by vm_compute|]. split; [by vm_compute|].
  by vm_compute.
Qed.

End EvaluatorFacts.

(** ** The re-ranker *)

Section SortFacts.
Import Rerank.
Context {A : Type}.
Implicit Types (x : Q * A) (l : list (Q * A)).

Lemma insert_desc_perm x l : insert_desc x l ≡ₚ x :: l.
Proof.
  induction l as [|y l IH]; cbn; [done|].
  destruct (Qgtb y.1 x.1); [|done].
  rewrite IH. apply Permutation_swap.
Qed.

Lemma sorted_desc_perm l : sorted_desc l ≡ₚ l.
Proof.
  induction l as [|x l IH]; cbn; [done|].
  rewrite insert_desc_perm. by constructor.
Qed.

Lemma Qgtb_true (a b : Q) : Qgtb a b = true → (b <= a)%Q.
Proof.
  unfold Qgtb. intros H%negb_true_iff.
  apply Qlt_le_weak, Qnot_le_lt. intros Hle%Qle_bool_iff. congruence.
Qed.

Lemma Qgtb_false (a b : Q) : Qgtb a b = false → (a <= b)%Q.
Proof. unfold Qgtb. intros H%negb_false_iff. by apply Qle_bool_iff. Qed.

Lemma insert_desc_sorted x l :
  StronglySorted above l → StronglySorted above (insert_desc x l).
Proof.
  induction 1 as [|y l Hl IH Hy]; cbn.
  - repeat constructor.
  - destruct (Qgtb y.1 x.1) eqn:E.
    + constructor; [done|].
      rewrite insert_desc_perm. constructor; [|done].
      by apply Qgtb_true.
    + apply Qgtb_false in E.
      constructor; [by constructor|].
      constructor; [done|].
      eapply Forall_impl; [exact Hy|].
      intros z Hz. unfold above in *. by apply Qle_trans with y.1.
Qed.

Lemma sorted_desc_sorted l : StronglySorted above (sorted_desc l).
Proof.
  induction l as [|x l IH]; cbn; [constructor|].
  by apply insert_desc_sorted.
Qed.

Lemma StronglySorted_lookup {B} (R : B → B → Prop) (l : list B) i j a b :
  StronglySorted R l → (i < j)%nat →
  l !! i = Some a → l !! j = Some b → R a b.
Proof.
  intros Hl. revert i j.
  induction Hl as [|x l Hl IH Hx]; intros i j Hij Hi Hj; [done|].
  destruct j as [|j]; [lia|]. cbn in Hj.
  destruct i as [|i]; cbn in Hi.
  - injection Hi as ->.
    apply (proj1 (Forall_forall _ _) Hx).
    apply list_elem_of_lookup. eauto.
  - apply (IH i j); [lia|done..].
Qed.

End SortFacts.

Section RerankFacts.
Import Rerank.

Lemma traverse_fmap {A B} (f : A → result B) (g : A → B) (l : list A) :
  (∀ x, x ∈ l → f x = Ok (g x)) → traverse f l = Ok (g <$> l).
Proof.
  induction l as [|x l IH]; intros Hf; cbn; [done|].
  rewrite Hf by set_solver. cbn.
  rewrite IH by set_solver. done.
Qed.

Lemma pair_of_well_formed h query documents doc :
  well_formed h documents → doc ∈ documents →
  pair_of h query doc = Ok (query, text_of h doc).
Proof.
  intros Hwf Hdoc. destruct (Hwf doc Hdoc) as (d & t & Hd & Ht).
  unfold pair_of, text_of, getitem. rewrite Hd. cbn. by rewrite Ht.
Qed.

Lemma write_scores_cons h x l q qs :
  write_scores h (x :: l) (q :: qs) =
    write_scores (setitem h x "rerank_score" (VFloat (round4 q))) l qs.
Proof. reflexivity. Qed.

(** The store after the scores are written: every listed dict has the
    key, every other dict is as before. *)
Lemma write_scores_lookup h documents (g : loc → Q) doc :
  write_scores h documents (g <$> documents) !! doc =
    if decide (doc ∈ documents)
    then insert "rerank_score" (VFloat (round4 (g doc))) <$> h !! doc
    else h !! doc.
Proof.
  revert h. induction documents as [|x l IH]; intros h.
  - cbn. by rewrite decide_False by set_solver.
  - rewrite fmap_cons, write_scores_cons, IH. unfold setitem. rewrite lookup_alter.
    destruct (decide (doc ∈ l)) as [Hin|Hnin];
      destruct (decide (doc ∈ x :: l)) as [Hin'|Hnin'];
      destruct (decide (x = doc)) as [Heq|Hne];
      try done;
      try (exfalso; rewrite elem_of_cons in *; intuition congruence).
    + subst x. destruct (h !! doc); cbn; [|done].
      by rewrite insert_insert_eq.
    + by subst x.
Qed.

Lemma sort_key_written (m : scorer) h query documents doc :
  well_formed h documents → doc ∈ documents →
  sort_key (write_scores h documents
              (stored_score_raw m h query <$> documents)) doc =
    Ok (stored_score m h query doc, doc).
Proof.
  intros Hwf Hdoc. destruct (Hwf doc Hdoc) as (d & t & Hd & Ht).
  unfold sort_key, getitem. rewrite write_scores_lookup.
  rewrite decide_True by done. rewrite Hd. cbn.
  by rewrite lookup_insert_eq.
Qed.

(** What [rerank] does when the scoring service is there. *)
Lemma rerank_active name (m : scorer) h query documents top_k :
  well_formed h documents → documents ≠ [] →
  rerank (mkReranker name (Some m)) h query documents top_k =
    Ok {| predict_calls := [(λ doc, (query, text_of h doc)) <$> documents];
          store_after :=
            write_scores h documents
              (stored_score_raw m h query <$> documents);
          returned :=
            slice_to top_k
              (sorted_desc
                 ((λ doc, (stored_score m h query doc, doc))
                    <$> documents)).*2 |}.
Proof.
  intros Hwf Hne. unfold rerank.
  destruct documents as [|x l] eqn:Hdocs; [done|]. rewrite <- Hdocs in *.
  cbn [_model].
  rewrite (traverse_fmap _ (λ doc, (query, text_of h doc)))
    by (intros; by eapply pair_of_well_formed).
  cbn [mbind result_bind].
  assert (Hscores : predict m ((λ doc, (query, text_of h doc)) <$> documents)
                    = stored_score_raw m h query <$> documents).
  { unfold predict. by rewrite <- list_fmap_compose. }
  rewrite Hscores.
  rewrite (traverse_fmap _ (λ doc, (stored_score m h query doc, doc)))
    by (intros; by apply sort_key_written).
  done.
Qed.

Lemma written_score (m : scorer) h query documents doc :
  well_formed h documents → doc ∈ documents →
  rerank_score (write_scores h documents
                  (stored_score_raw m h query <$> documents)) doc
    = Some (stored_score m h query doc).
Proof.
  intros Hwf Hdoc. destruct (Hwf doc Hdoc) as (d & t & Hd & Ht).
  unfold rerank_score. rewrite write_scores_lookup.
  rewrite decide_True by done. rewrite Hd. cbn.
  by rewrite lookup_insert_eq.
Qed.

(** The list [rerank] returns from an active service: it is made of
    candidates, and the stored scores go down along it. *)
Lemma ranked_descending (k : loc → Q) (documents : list loc) (n : Z) :
  let out := slice_to n (sorted_desc ((λ doc, (k doc, doc)) <$> documents)).*2
  in out ⊆ documents ∧
     ∀ i j a b, (i < j)%nat → out !! i = Some a → out !! j = Some b →
                (k b <= k a)%Q.
Proof.
  set (keyed := (λ doc, (k doc, doc)) <$> documents).
  assert (Hkey : ∀ x, x ∈ sorted_desc keyed → x.1 = k x.2 ∧ x.2 ∈ documents).
  { intros x Hx. rewrite sorted_desc_perm in Hx.
    apply list_elem_of_fmap in Hx as (doc & -> & Hdoc). done. }
  cbn zeta. unfold slice_to.
  set (cut := Z.to_nat _). split.
  - intros a Ha. apply subseteq_take in Ha.
    apply list_elem_of_fmap in Ha as (x & -> & Hx). by apply Hkey.
  - intros i j a b Hij Hi Hj.
    apply lookup_take_Some in Hi as [Hi _].
    apply lookup_take_Some in Hj as [Hj _].
    rewrite list_lookup_fmap in Hi, Hj.
    destruct (sorted_desc keyed !! i) as [x|] eqn:Ex; [|done].
    destruct (sorted_desc keyed !! j) as [y|] eqn:Ey; [|done].
    injection Hi as <-. injection Hj as <-.
    pose proof (StronglySorted_lookup above _ i j x y
                  (sorted_desc_sorted keyed) Hij Ex Ey) as Hxy.
    unfold above in Hxy.
    destruct (Hkey x) as [<- _]; [apply list_elem_of_lookup; eauto|].
    destruct (Hkey y) as [<- _]; [apply list_elem_of_lookup; eauto|].
    done.
Qed.

Lemma ranked_length (k : loc → Q) (documents : list loc) :
  length (sorted_desc ((λ doc, (k doc, doc)) <$> documents)).*2
    = length documents.
Proof.
  rewrite length_fmap.
  rewrite (Permutation_length (sorted_desc_perm _)).
  by rewrite length_fmap.
Qed.

End RerankFacts.

Section RerankClaims.
Import Rerank.

Lemma two_hits_well_formed : well_formed two_hits two_candidates.
Proof.
  intros doc Hdoc. unfold two_candidates in Hdoc.
  apply elem_of_cons in Hdoc as [-> | Hdoc];
    [by exists {[ "text" := VStr (txt "ab") ]}, (txt "ab")|].
  apply elem_of_cons in Hdoc as [-> | Hdoc];
    [by exists {[ "text" := VStr (txt "abcd") ]}, (txt "abcd")|].
  by apply elem_of_nil in Hdoc.
Qed.

(** C3, as the code has it.  For every query, every list of well-formed
    hits and every [top_n ≥ 0], [rerank] returns a list of at most
    [min(top_n, len(hits))] elements; when the scoring service is active
    every returned hit carries a [rerank_score] and these scores go down
    along the list; and on an empty list it returns the empty list
    without a call to the scoring service. *)
Theorem rerank_length_and_order
    (r : Reranker) (h : store) (query : text) (documents : list loc)
    (top_k : Z) :
  well_formed h documents → 0 ≤ top_k →
  ∃ o, rerank r h query documents top_k = Ok o ∧
    Z.of_nat (length (returned o))
      ≤ Z.min top_k (Z.of_nat (length documents)) ∧
    (is_Some (_model r) →
       descending (store_after o) (returned o) ∧
       ∀ a, a ∈ returned o → is_Some (rerank_score (store_after o) a)) ∧
    (documents = [] → returned o = [] ∧ predict_calls o = []).
Proof.
  intros Hwf Hk. destruct r as [name model].
  destruct documents as [|x l] eqn:Hdocs.
  { eexists. split; [by destruct model|]. cbn.
    split; [lia|]. split; [|done]. intros _. split; [|set_solver].
    by intros i j a b qa qb _ Hi. }
  rewrite <- Hdocs in *. assert (Hne : documents ≠ []) by by subst.
  clear Hdocs. destruct model as [m|].
  - eexists. split; [by apply rerank_active|]. cbn [returned store_after].
    destruct (ranked_descending (stored_score m h query) documents top_k)
      as [Hsub Hdesc].
    split; [|split; [|done]].
    + rewrite slice_to_length by done. rewrite ranked_length. lia.
    + intros _. split.
      * intros i j a b qa qb Hij Hi Hj Ha Hb.
        rewrite written_score in Ha, Hb
          by (try done; apply Hsub, list_elem_of_lookup; eauto).
        injection Ha as <-. injection Hb as <-.
        by apply (Hdesc i j).
      * intros a Ha. rewrite written_score by (try done; by apply Hsub).
        done.
  - exists (mkOutcome [] h (slice_to top_k documents)).
    split; [by destruct documents|]. cbn.
    split; [rewrite slice_to_length by done; lia|].
    split; [by intros [? [=]] | done].
Qed.

Lemma rerank_length_and_order_witness :
  (well_formed two_hits two_candidates ∧ 0 ≤ 1) ∧
  ∃ o, rerank length_reranker two_hits (txt "q") two_candidates 1 = Ok o ∧
    Z.of_nat (length (returned o))
      ≤ Z.min 1 (Z.of_nat (length two_candidates)) ∧
    (is_Some (_model length_reranker) →
       descending (store_after o) (returned o) ∧
       ∀ a, a ∈ returned o → is_Some (rerank_score (store_after o) a)) ∧
    (two_candidates = [] → returned o = [] ∧ predict_calls o = []).
Proof.
  split; [split; [apply two_hits_well_formed | lia]|].
  apply (rerank_length_and_order length_reranker two_hits (txt "q")
           two_candidates 1); [apply two_hits_well_formed | lia].
Defined.

(** C3 as stated fails for a negative [top_n]: [ranked[:-1]] drops the
    last element only, so two hits and [top_n = -1] give one hit, which
    is more than [min(-1, 2)]. *)
Lemma rerank_negative_top_n :
  returned <$> rerank length_reranker two_hits (txt "q") two_candidates (-1)
    = Ok [2%positive] ∧
  returned <$> rerank fallback_reranker two_hits (txt "q") two_candidates (-1)
    = Ok [1%positive] ∧
  ¬ (Z.of_nat (length [2%positive])
       ≤ Z.min (-1) (Z.of_nat (length two_candidates))).
Proof.
  split; [by vm_compute|]. split; [by vm_compute|]. cbn. lia.
Qed.

(** C9.  When the scoring service is active, [rerank] writes the key
    [rerank_score] into every dict of the input list, in the store the
    caller shares: each such dict is afterwards the dict it was with
    the rounded score of its text under that key, whether or not the hit
    is among those returned; the dicts that are not in the list are
    untouched. *)
Theorem rerank_writes_every_hit
    (name : string) (m : scorer) (h : store) (query : text)
    (documents : list loc) (top_k : Z) :
  well_formed h documents →
  ∃ o, rerank (mkReranker name (Some m)) h query documents top_k = Ok o ∧
    (∀ doc, doc ∈ documents →
       ∃ d t, h !! doc = Some d ∧ d !! "text" = Some (VStr t) ∧
         store_after o !! doc =
           Some (<["rerank_score" := VFloat (round4 (m query t))]> d)) ∧
    (∀ doc, doc ∈ documents → doc ∉ returned o →
       is_Some (rerank_score (store_after o) doc)) ∧
    (∀ doc, doc ∉ documents → store_after o !! doc = h !! doc).
Proof.
  intros Hwf.
  destruct (decide (documents = [])) as [->|Hne].
  { eexists. split; [done|]. cbn.
    split; [by intros doc Hdoc%elem_of_nil|].
    split; [by intros doc Hdoc%elem_of_nil | done]. }
  eexists. split; [by apply rerank_active|]. cbn [returned store_after].
  split; [|split].
  - intros doc Hdoc. destruct (Hwf doc Hdoc) as (d & t & Hd & Ht).
    exists d, t. split; [done|]. split; [done|].
    rewrite write_scores_lookup, decide_True by done.
    rewrite Hd. cbn. unfold stored_score_raw, text_of.
    rewrite Hd. cbn. by rewrite Ht.
  - intros doc Hdoc _. by rewrite written_score.
  - intros doc Hdoc. by rewrite write_scores_lookup, decide_False.
Qed.

Lemma rerank_writes_every_hit_witness :
  well_formed two_hits two_candidates ∧
  ∃ o, rerank (mkReranker "m" (Some by_length)) two_hits (txt "q")
         two_candidates 1 = Ok o ∧
    (∀ doc, doc ∈ two_candidates →
       ∃ d t, two_hits !! doc = Some d ∧ d !! "text" = Some (VStr t) ∧
         store_after o !! doc =
           Some (<["rerank_score" :=
                     VFloat (round4 (by_length (txt "q") t))]> d)) ∧
    (∀ doc, doc ∈ two_candidates → doc ∉ returned o →
       is_Some (rerank_score (store_after o) doc)) ∧
    (∀ doc, doc ∉ two_candidates → store_after o !! doc = two_hits !! doc).
Proof.
  split; [apply two_hits_well_formed|].
  apply (rerank_writes_every_hit "m" by_length two_hits (txt "q")
           two_candidates 1).
  apply two_hits_well_formed.
Defined.

(** With [top_k = 1] only the second hit is returned, and the first one
    has its score all the same. *)
Example rerank_marks_dropped_hit :
  returned <$> rerank length_reranker two_hits (txt "q") two_candidates 1
    = Ok [2%positive] ∧
  rerank_score two_hits 1%positive = None ∧
  (λ o, (rerank_score (store_after o) 1%positive : option Q))
    <$> rerank length_reranker two_hits (txt "q") two_candidates 1
    = Ok (Some (round4 2)).
Proof. split; [by vm_compute|]. split; by vm_compute. Qed.

End RerankClaims.

(** ** The vector store *)

Section StoreFacts.
Import Store.

Lemma elem_of_get_ids (c : collection) (src id : string) :
  id ∈ get_ids c src ↔ ∃ e, c !! id = Some e ∧ has_source src e.
Proof.
  unfold get_ids. rewrite list_elem_of_fmap. split.
  - intros ([k e] & -> & Hin). exists e.
    by apply elem_of_map_to_list, map_lookup_filter_Some in Hin.
  - intros (e & Hc & Hsrc). exists (id, e). split; [done|].
    by apply elem_of_map_to_list, map_lookup_filter_Some.
Qed.

Lemma lookup_delete_ids (c : collection) (ids : list string) (id : string) :
  delete_ids c ids !! id = if decide (id ∈ ids) then None else c !! id.
Proof.
  unfold delete_ids. induction ids as [|k ids IH]; cbn.
  - by rewrite decide_False by apply not_elem_of_nil.
  - rewrite lookup_delete, IH.
    destruct (decide (id ∈ ids)) as [Hin|Hnin];
      destruct (decide (id ∈ k :: ids)) as [Hin'|Hnin'];
      destruct (decide (k = id)) as [Heq|Hne];
      try done;
      exfalso; rewrite elem_of_cons in *; intuition congruence.
Qed.

(** Deleting the ids of a source leaves the entries of the other
    sources, and only them. *)
Lemma delete_ids_source (c : collection) (src : string) :
  delete_ids c (get_ids c src) = filter (λ kv, ¬ has_source src kv.2) c.
Proof.
  apply map_eq. intros id. rewrite lookup_delete_ids, map_lookup_filter.
  destruct (decide (id ∈ get_ids c src)) as [Hin|Hnin].
  - apply elem_of_get_ids in Hin as (e & -> & Hsrc). cbn.
    by rewrite option_guard_False by (cbn; tauto).
  - destruct (c !! id) as [e|] eqn:Hc; cbn; [|done].
    rewrite option_guard_True; [done|]. cbn. intros Hsrc.
    apply Hnin, elem_of_get_ids. eauto.
Qed.

(** C6.  For every source, [delete_source] either raises [ValueError]
    (the code's "not found" signal), and then no stored entry has that
    source, or it succeeds, and then some stored entry had that source
    and what remains is the collection without the entries of that
    source and with all the others. *)
Theorem delete_source_removes_or_raises (c : collection) (src : string) :
  match delete_source c src with
  | Raise e =>
      e = ValueError ∧ ∀ id en, c !! id = Some en → ¬ has_source src en
  | Ok c' =>
      (∃ id en, c !! id = Some en ∧ has_source src en) ∧
      c' = filter (λ kv, ¬ has_source src kv.2) c
  end.
Proof.
  unfold delete_source.
  destruct (get_ids c src) as [|id ids] eqn:Hids.
  - split; [done|]. intros id en Hc Hsrc.
    assert (Hin : id ∈ get_ids c src) by (apply elem_of_get_ids; eauto).
    rewrite Hids in Hin. by apply elem_of_nil in Hin.
  - split.
    + assert (Hin : id ∈ get_ids c src) by (rewrite Hids; left).
      apply elem_of_get_ids in Hin as (en & Hc & Hsrc). eauto.
    + rewrite <- Hids. apply delete_ids_source.
Qed.

(** A source that is not in the collection: the delete raises. *)
Example delete_source_never_ingested :
  delete_source two_entries "c.txt" = Raise ValueError ∧
  delete_source ∅ "a.txt" = Raise ValueError ∧
  (size <$> delete_source two_entries "a.txt") = Ok 1%nat.
Proof. split; [by vm_compute|]. split; by vm_compute. Qed.






End StoreFacts.


(** ** ConversationMemory: isolation, counting and views *)

Section MemoryViewFacts.
Import Memory MemoryViews.

(** A call on one session leaves the history of every other session as
    it was, for [add_turn] (when it returns) and for [clear]. *)
Theorem sessions_isolated
    (m : ConversationMemory) (sid role content now : string) :
  match add_turn m sid role content now with
  | Ok m' => ∀ other, other ≠ sid → get_history m' other = get_history m other
  | Raise _ => True
  end ∧
  ∀ other, other ≠ sid → get_history (clear m sid) other = get_history m other.
Proof.
  split.
  - unfold add_turn.
    destruct (match _sessions m !! sid with
              | Some d => Ok d
              | None => deque_new (max_turns m * 2)
              end) as [d|e]; cbn; [|done].
    intros other Hne. unfold get_history. cbn.
    by rewrite lookup_insert_ne.
  - intros other Hne. unfold get_history, clear. cbn.
    by rewrite lookup_delete_ne.
Qed.

(** The number of sessions: [add_turn] creates a session on its first
    turn and only then; [clear] removes one known session and nothing
    else.  [add_turn] raises only for an unknown session whose deque
    cannot be built: [ValueError] under a bound [- 2^62 ≤ max_turns < 0],
    [OverflowError] under a bound below [- 2^62] or of [2^62] and more;
    it returns in every other case. *)
Theorem session_count_changes
    (m : ConversationMemory) (sid role content now : string) :
  match add_turn m sid role content now with
  | Ok m' =>
      (is_Some (_sessions m !! sid) ∨ 0 ≤ max_turns m < 2 ^ 62) ∧
      session_count m' =
        if decide (is_Some (_sessions m !! sid)) then session_count m
        else S (session_count m)
  | Raise e =>
      _sessions m !! sid = None ∧
      ((e = ValueError ∧ - 2 ^ 62 ≤ max_turns m < 0) ∨
       (e = OverflowError ∧ (max_turns m < - 2 ^ 62 ∨ 2 ^ 62 ≤ max_turns m)))
  end ∧
  session_count (clear m sid) =
    if decide (is_Some (_sessions m !! sid)) then pred (session_count m)
    else session_count m.
Proof.
  unfold session_count, add_turn, clear. cbn. split.
  - destruct (_sessions m !! sid) as [d|] eqn:Hd; cbn.
    + split; [left; eauto|]. rewrite decide_True by eauto.
      apply map_size_insert_Some. eauto.
    + rewrite deque_new_cases.
      destruct (decide (0 ≤ max_turns m < 2 ^ 62)) as [Hin|Hout]; cbn.
      * split; [by right|].
        rewrite decide_False by (by intros [? ?]).
        by apply map_size_insert_None.
      * destruct (decide (- 2 ^ 62 ≤ max_turns m < 0)) as [Hneg|Hfar]; cbn.
        -- split; [done|]. by left.
        -- split; [done|]. right. split; [done|]. lia.
  - destruct (_sessions m !! sid) as [d|] eqn:Hd.
    + rewrite decide_True by eauto.
      apply map_size_delete_Some. eauto.
    + rewrite decide_False by (by intros [? ?]).
      by rewrite delete_id.
Qed.

(** After [clear], the next turn starts the session again: its history
    is that turn alone.  The bound must let one turn in and be one for
    which the deque can be built, [1 ≤ max_turns < 2^62]. *)
Theorem clear_then_add_turn_restarts
    (m : ConversationMemory) (sid role content now : string) :
  1 ≤ max_turns m < 2 ^ 62 →
  ∃ m', add_turn (clear m sid) sid role content now = Ok m' ∧
        get_history m' sid = [mkTurn role content now].
Proof.
  intros Hpos. unfold add_turn, clear. cbn.
  rewrite lookup_delete_eq, deque_new_cases, decide_True by lia. cbn.
  eexists. split; [done|]. unfold get_history. cbn.
  rewrite lookup_insert_eq. unfold deque_append. cbn.
  replace (1 - Z.to_nat (max_turns m * 2))%nat with 0%nat by lia. done.
Qed.

Lemma clear_then_add_turn_restarts_witness :
  1 ≤ max_turns three_turns < 2 ^ 62 ∧
  ∃ m', add_turn (clear three_turns "s") "s" "user" "again" "t4" = Ok m' ∧
        get_history m' "s" = [mkTurn "user" "again" "t4"].
Proof.
  split; [by vm_compute|].
  apply (clear_then_add_turn_restarts three_turns "s" "user" "again" "t4").
  by vm_compute.
Defined.





End MemoryViewFacts.

Section FormattedContextFacts.
Import Memory MemoryViews.

Lemma join_length_le (sep : text) (k : nat) (parts : list text) :
  Forall (λ p, (length p ≤ k)%nat) parts →
  (length (join sep parts) ≤ (k + length sep) * length parts)%nat.
Proof.
  induction 1 as [|p parts Hp Hparts IH]; [cbn; lia|].
  destruct parts as [|q parts].
  - cbn. lia.
  - change (join sep (p :: q :: parts))
      with (p ++ sep ++ join sep (q :: parts)).
    rewrite !length_app. cbn [length] in *. lia.
Qed.

Lemma slice_to_bound {A} (n : Z) (l : list A) :
  0 ≤ n → Z.of_nat (length (slice_to n l)) ≤ n.
Proof. intros Hn. rewrite slice_to_length by done. lia. Qed.

Lemma render_turn_length (t : Turn) : (length (render_turn t) ≤ 511)%nat.
Proof.
  unfold render_turn, role_label. rewrite !length_app.
  pose proof (slice_to_bound 500 (txt (content t))).
  destruct (decide (role t = "user"%string)); cbn [length txt list_ascii_of_string];
    lia.
Qed.

Lemma render_nonempty (history : list Turn) :
  history ≠ [] → (1 ≤ length (render history))%nat.
Proof.
  destruct history as [|t rest]; [done|]. intros _. unfold render.
  assert (Ht : (1 ≤ length (render_turn t))%nat).
  { unfold render_turn, role_label. rewrite length_app.
    destruct (decide (role t = "user"%string)); cbn; lia. }
  destruct rest as [|u rest]; [done|].
  change (render_turn <$> t :: u :: rest)
    with (render_turn t :: (render_turn <$> u :: rest)).
  change (join newline (render_turn t :: (render_turn <$> u :: rest)))
    with (render_turn t ++ newline ++ join newline (render_turn <$> u :: rest)).
  rewrite length_app. lia.
Qed.

Lemma formatted_context_cases (m : ConversationMemory) (sid : string)
    (max_chars : Z) :
  get_history m sid ≠ [] →
  get_formatted_context m sid max_chars =
    if max_chars <? Z.of_nat (length (render (get_history m sid)))
    then truncation_marker
           ++ slice_from (- max_chars) (render (get_history m sid))
    else render (get_history m sid).
Proof.
  unfold get_formatted_context.
  by destruct (get_history m sid) as [|t rest].
Qed.

(** [get_formatted_context] under a budget [max_chars ≥ 1]: a rendering
    that fits is returned whole; a longer one is cut to its last
    [max_chars] characters behind the 15 characters of the marker, so the
    result never has more than [max_chars + 15] characters. *)
Theorem formatted_context_budget
    (m : ConversationMemory) (sid : string) (max_chars : Z) :
  1 ≤ max_chars →
  let full := render (get_history m sid) in
  Z.of_nat (length (get_formatted_context m sid max_chars)) ≤ max_chars + 15 ∧
  (Z.of_nat (length full) ≤ max_chars →
     get_formatted_context m sid max_chars = full) ∧
  (max_chars < Z.of_nat (length full) →
     get_formatted_context m sid max_chars =
       truncation_marker ++ most_recent (Z.to_nat max_chars) full).
Proof.
  intros Hpos full.
  destruct (decide (get_history m sid = [])) as [Hnil|Hne].
  { unfold get_formatted_context, full. rewrite Hnil. cbn.
    split; [lia|]. split; [done|]. lia. }
  rewrite formatted_context_cases by done. fold full.
  assert (Hslice : slice_from (- max_chars) full =
                   most_recent (Z.to_nat max_chars) full).
  { unfold slice_from, most_recent.
    destruct (- max_chars <? 0) eqn:E; [|lia]. f_equal. lia. }
  destruct (max_chars <? Z.of_nat (length full)) eqn:E.
  - apply Z.ltb_lt in E. rewrite Hslice. split; [|split; [lia|done]].
    rewrite length_app.
    pose proof (most_recent_length (Z.to_nat max_chars) full).
    change (length truncation_marker) with 15%nat. lia.
  - apply Z.ltb_ge in E. split; [lia|]. split; [done|lia].
Qed.

Lemma formatted_context_budget_witness :
  1 ≤ 20 ∧
  Z.of_nat (length (get_formatted_context three_turns "s" 20)) ≤ 20 + 15 ∧
  (Z.of_nat (length (render (get_history three_turns "s"))) ≤ 20 →
     get_formatted_context three_turns "s" 20
       = render (get_history three_turns "s")) ∧
  (20 < Z.of_nat (length (render (get_history three_turns "s"))) →
     get_formatted_context three_turns "s" 20 =
       truncation_marker
         ++ most_recent (Z.to_nat 20) (render (get_history three_turns "s"))).
Proof.
  split; [lia|]. apply (formatted_context_budget three_turns "s" 20). lia.
Defined.

(** [get_formatted_context] under a budget [max_chars ≤ 0] on a session
    with turns: [full_context[-max_chars:]] then starts at index
    [-max_chars], so with the budget 0 the result is the marker followed
    by the whole rendering, longer than the rendering itself. *)
Theorem formatted_context_nonpositive_budget
    (m : ConversationMemory) (sid : string) (max_chars : Z) :
  max_chars ≤ 0 → get_history m sid ≠ [] →
  get_formatted_context m sid max_chars =
    truncation_marker
      ++ drop (Z.to_nat (- max_chars)) (render (get_history m sid)) ∧
  (max_chars = 0 →
     get_formatted_context m sid max_chars =
       truncation_marker ++ render (get_history m sid)).
Proof.
  intros Hmax Hne. rewrite formatted_context_cases by done.
  pose proof (render_nonempty _ Hne) as Hlen.
  destruct (max_chars <? _) eqn:E; [|apply Z.ltb_ge in E; lia].
  assert (Hslice : slice_from (- max_chars) (render (get_history m sid)) =
                   drop (Z.to_nat (- max_chars)) (render (get_history m sid))).
  { unfold slice_from. destruct (- max_chars <? 0) eqn:E'; [lia|].
    destruct (decide (- max_chars
                      ≤ Z.of_nat (length (render (get_history m sid))))).
    - f_equal. lia.
    - rewrite !drop_ge by lia. done. }
  rewrite Hslice. split; [done|]. by intros ->.
Qed.

Lemma formatted_context_nonpositive_budget_witness :
  (0 ≤ 0 ∧ get_history three_turns "s" ≠ []) ∧
  get_formatted_context three_turns "s" 0 =
    truncation_marker
      ++ drop (Z.to_nat (- 0)) (render (get_history three_turns "s")) ∧
  (0 = 0 →
     get_formatted_context three_turns "s" 0 =
       truncation_marker ++ render (get_history three_turns "s")).
Proof.
  split; [split; [lia | by vm_compute]|].
  apply (formatted_context_nonpositive_budget three_turns "s" 0);
    [lia | by vm_compute].
Defined.

(** Whatever the budget, the formatted context has at most 15 characters
    of marker and 512 characters for each turn of the history: a turn is
    rendered on at most 511 characters (label, separator and the first
    500 characters of its content). *)
Theorem formatted_context_size
    (m : ConversationMemory) (sid : string) (max_chars : Z) :
  (length (get_formatted_context m sid max_chars)
     ≤ 15 + 512 * length (get_history m sid))%nat ∧
  Forall (λ t, (length (render_turn t) ≤ 511)%nat) (get_history m sid).
Proof.
  assert (Hturns : Forall (λ t, (length (render_turn t) ≤ 511)%nat)
                     (get_history m sid)).
  { apply Forall_forall. intros t _. apply render_turn_length. }
  split; [|done].
  assert (Hfull : (length (render (get_history m sid))
                   ≤ 512 * length (get_history m sid))%nat).
  { unfold render.
    pose proof (join_length_le newline 511 (render_turn <$> get_history m sid))
      as Hj.
    rewrite length_fmap in Hj. cbn [length newline] in Hj.
    replace (512 * length (get_history m sid))%nat
      with ((511 + 1) * length (get_history m sid))%nat by lia.
    apply Hj. by apply Forall_fmap. }
  destruct (decide (get_history m sid = [])) as [Hnil|Hne].
  { unfold get_formatted_context. rewrite Hnil. cbn. lia. }
  rewrite formatted_context_cases by done.
  destruct (max_chars <? _); [|lia].
  rewrite length_app. change (length truncation_marker) with 15%nat.
  assert (Hs : (length (slice_from (- max_chars) (render (get_history m sid)))
                ≤ length (render (get_history m sid)))%nat).
  { unfold slice_from. rewrite length_drop. lia. }
  lia.
Qed.

End FormattedContextFacts.

(** ** The chunker: shape and number of the chunks *)

Section TrimFacts.
Import ChunkShape.

Lemma lstrip_head (s : text) (c : ascii) :
  head (lstrip s) = Some c → is_space c = false.
Proof.
  induction s as [|a s IH]; cbn; [done|].
  destruct (is_space a) eqn:E; [done|]. cbn. by intros [= <-].
Qed.

Lemma lstrip_last (s : text) : lstrip s ≠ [] → last (lstrip s) = last s.
Proof.
  induction s as [|a s IH]; cbn; [done|].
  destruct (is_space a); [|done]. intros Hne.
  rewrite IH by done. destruct s; [done|]. by rewrite last_cons_cons.
Qed.

Lemma strip_trimmed (s : text) : trimmed (strip s).
Proof.
  unfold strip. split; intros c Hc.
  - rewrite head_reverse in Hc.
    assert (Hne : lstrip (reverse (lstrip s)) ≠ []).
    { intros Hnil. by rewrite Hnil in Hc. }
    rewrite lstrip_last, last_reverse in Hc by done.
    by apply lstrip_head in Hc.
  - rewrite last_reverse in Hc. by apply lstrip_head in Hc.
Qed.

Lemma lstrip_blank (s : text) : lstrip s = [] ↔ blank s.
Proof.
  unfold blank. induction s as [|a s IH]; cbn; [done|].
  destruct (is_space a) eqn:E.
  - rewrite IH. split; [by constructor | by inversion 1].
  - split; [done|]. inversion 1; congruence.
Qed.

(** Stripping leaves nothing exactly when there was only whitespace. *)
Lemma strip_blank (s : text) : strip s = [] ↔ blank s.
Proof.
  unfold strip. split.
  - intros H. apply (f_equal reverse) in H.
    rewrite reverse_involutive, reverse_nil in H.
    apply lstrip_blank in H. unfold blank in H.
    rewrite Forall_reverse in H.
    destruct (lstrip s) as [|a r] eqn:E; [by apply lstrip_blank|].
    exfalso. inversion H as [|? ? Ha _]; subst.
    assert (Hh : head (lstrip s) = Some a) by by rewrite E.
    apply lstrip_head in Hh. congruence.
  - intros H. apply lstrip_blank in H. rewrite H. done.
Qed.

Lemma blank_app (s u : text) : blank (s ++ u) ↔ blank s ∧ blank u.
Proof. apply Forall_app. Qed.

Lemma join_blank (parts : list text) :
  blank (join space parts) → Forall blank parts.
Proof.
  induction parts as [|p parts IH]; [constructor|].
  intros H. destruct parts as [|q parts].
  - by constructor.
  - change (join space (p :: q :: parts))
      with (p ++ space ++ join space (q :: parts)) in H.
    apply blank_app in H as [Hp H]. apply blank_app in H as [_ H].
    constructor; [done | by apply IH].
Qed.

End TrimFacts.

Section ChunkShapeFacts.
Import Chunker ChunkShape.

Variable p : DocumentProcessor.
Variable src : string.

Lemma emit_shaped cs u :
  Forall (shaped src) cs → trimmed u → Forall (shaped src) (emit src cs u).
Proof.
  intros Hcs Hu. unfold emit. destruct u as [|a u]; [done|].
  apply Forall_app. split; [done|].
  constructor; [|constructor]. by split; [|split; [|split]].
Qed.

Lemma split_loop_shaped sentences :
  Forall (shaped src) (chunks (split_loop p src sentences)).
Proof.
  unfold split_loop.
  induction sentences as [|s l IH] using rev_ind; [constructor|].
  rewrite foldl_app. cbn [foldl]. unfold split_step at 1. cbn.
  destruct (_ && _); cbn; [|done].
  apply emit_shaped; [done | apply strip_trimmed].
Qed.

Lemma split_text_shaped (t : text) :
  Forall (shaped src) (_split_text p t src).
Proof.
  unfold _split_text, flush.
  pose proof (split_loop_shaped (re_split_sentences t)) as H.
  destruct (current _); [exact H|].
  apply emit_shaped; [exact H | apply strip_trimmed].
Qed.

(** Every chunk [_split_text] returns has a text that is not empty and
    has no whitespace at either end, carries the source it was given,
    and a [char_count] that is the length of its text. *)
Theorem split_text_chunks_trimmed (t : text) :
  Forall (λ c, chunk_text c ≠ [] ∧ trimmed (chunk_text c) ∧
               source (metadata c) = src ∧
               char_count (metadata c) = Z.of_nat (length (chunk_text c)))
         (_split_text p t src).
Proof. exact (split_text_shaped t). Qed.

Lemma emit_length cs u :
  (length cs ≤ length (emit src cs u) ≤ length cs + 1)%nat.
Proof.
  unfold emit. destruct u; [lia|]. rewrite length_app. cbn. lia.
Qed.

Lemma split_step_counted k st s :
  counted k st → counted (S k) (split_step p src st s).
Proof.
  intros Hst. right. unfold split_step.
  destruct Hst as [(Hk & Hc & Hcur) | (Hcur & Hk)].
  - rewrite Hcur, andb_false_r. cbn. rewrite Hcur, Hc. cbn.
    split; [done|lia].
  - destruct (_ && _); cbn.
    + split; [done|].
      pose proof (emit_length (chunks st) (strip (join space (current st)))).
      lia.
    + split; [by intros [_ [=]]%app_nil | lia].
Qed.

Lemma split_loop_counted sentences :
  counted (length sentences) (split_loop p src sentences).
Proof.
  unfold split_loop.
  induction sentences as [|s l IH] using rev_ind; [by left|].
  rewrite foldl_app, length_app. cbn [foldl length].
  replace (length l + 1)%nat with (S (length l)) by lia.
  by apply split_step_counted.
Qed.

(** [_split_text] never returns more chunks than the text has
    sentences. *)
Theorem split_text_at_most_one_chunk_per_sentence (t : text) :
  (length (_split_text p t src) ≤ length (re_split_sentences t))%nat.
Proof.
  unfold _split_text, flush.
  destruct (split_loop_counted (re_split_sentences t))
    as [(Hk & Hc & Hcur) | (Hcur & Hk)].
  - rewrite Hcur, Hc. cbn. lia.
  - destruct (current _) as [|a l] eqn:E; [done|].
    pose proof (emit_length (chunks (split_loop p src (re_split_sentences t)))
                  (strip (join space (a :: l)))).
    lia.
Qed.

End ChunkShapeFacts.

Section BlankTextFacts.
Import Chunker ChunkShape.

Lemma space_not_terminator (c : ascii) :
  is_space c = true → is_terminator c = false.
Proof. destruct c as [[] [] [] [] [] [] [] []]; by vm_compute. Qed.

Lemma split_scan_blank (cur s : text) :
  blank cur → blank s → split_scan false cur s = [reverse cur ++ s].
Proof.
  revert cur. induction s as [|c s IH]; intros cur Hcur Hs; cbn.
  - by rewrite app_nil_r.
  - inversion Hs as [|? ? Hc Hs']; subst.
    assert (Hhead : from_option is_terminator false (head cur) = false).
    { destruct cur as [|a cur]; [done|]. cbn.
      inversion Hcur; subst. by apply space_not_terminator. }
    rewrite Hhead, andb_false_r.
    rewrite IH; [|by constructor|done].
    by rewrite reverse_cons, <- app_assoc.
Qed.

(** A character that is not whitespace is in one of the pieces. *)
Lemma split_scan_covers (skipping : bool) (cur s : text) (x : ascii) :
  is_space x = false →
  x ∈ s ∨ (skipping = false ∧ x ∈ cur) →
  ∃ piece, piece ∈ split_scan skipping cur s ∧ x ∈ piece.
Proof.
  intros Hx. revert skipping cur.
  induction s as [|c s IH]; intros skipping cur Hin; cbn.
  - destruct Hin as [Hin | [_ Hin]]; [by apply elem_of_nil in Hin|].
    exists (reverse cur). split; [by left | by apply elem_of_reverse].
  - destruct skipping.
    + destruct Hin as [Hin | [? _]]; [|done].
      apply elem_of_cons in Hin as [-> | Hin].
      * rewrite Hx. apply IH. right. split; [done | by left].
      * destruct (is_space c); apply IH; by left.
    + destruct (is_space c && from_option is_terminator false (head cur))
        eqn:E.
      * apply andb_true_iff in E as [Ec _].
        destruct Hin as [Hin | [_ Hin]].
        -- apply elem_of_cons in Hin as [-> | Hin]; [congruence|].
           destruct (IH true []) as (piece & Hp & Hxp); [by left|].
           exists piece. split; [by right | done].
        -- exists (reverse cur). split; [by left | by apply elem_of_reverse].
      * apply IH. destruct Hin as [Hin | [_ Hin]].
        -- apply elem_of_cons in Hin as [-> | Hin].
           ++ right. split; [done | by left].
           ++ by left.
        -- right. split; [done | by right].
Qed.

Lemma not_blank_sentence (t : text) :
  ¬ blank t → Exists (λ s, ¬ blank s) (re_split_sentences t).
Proof.
  intros Ht. apply not_Forall_Exists in Ht; [|apply _].
  apply Exists_exists in Ht as (x & Hin & Hx).
  apply not_true_is_false in Hx.
  destruct (split_scan_covers false [] t x Hx) as (piece & Hp & Hxp);
    [by left|].
  apply Exists_exists. exists piece. split; [done|].
  intros Hblank. apply (proj1 (Forall_forall _ _) Hblank) in Hxp. congruence.
Qed.

Variable p : DocumentProcessor.
Variable src : string.

Lemma emit_keeps cs u : cs ≠ [] → emit src cs u ≠ [].
Proof.
  intros Hcs. unfold emit. destruct u; [done|].
  by intros [? _]%app_nil.
Qed.

Lemma emit_visible cs parts :
  Exists (λ s, ¬ blank s) parts → emit src cs (strip (join space parts)) ≠ [].
Proof.
  intros Hparts. unfold emit.
  destruct (strip (join space parts)) as [|a u] eqn:E.
  - exfalso. apply strip_blank, join_blank in E.
    apply Exists_exists in Hparts as (s & Hin & Hs).
    by apply Hs, (proj1 (Forall_forall _ _) E).
  - by intros [_ [=]]%app_nil.
Qed.

Lemma split_step_visible st s :
  visible st ∨ ¬ blank s → visible (split_step p src st s).
Proof.
  intros Hvis. unfold visible, split_step.
  destruct (_ && _); cbn.
  - destruct Hvis as [[Hcs | Hcur] | Hs].
    + left. by apply emit_keeps.
    + left. by apply emit_visible.
    + right. apply Exists_cons_tl. by constructor.
  - destruct Hvis as [[Hcs | Hcur] | Hs].
    + by left.
    + right. apply Exists_app. by left.
    + right. apply Exists_app. right. by constructor.
Qed.

Lemma split_loop_visible sentences :
  Exists (λ s, ¬ blank s) sentences → visible (split_loop p src sentences).
Proof.
  unfold split_loop.
  induction sentences as [|s l IH] using rev_ind;
    [by intros ?%Exists_nil|].
  intros H. rewrite foldl_app. cbn [foldl].
  apply split_step_visible.
  apply Exists_app in H as [H | H]; [left; by apply IH|].
  right. inversion H as [? ? Hs | ? ? Hnil]; [done|].
  by apply Exists_nil in Hnil.
Qed.

(** [_split_text] returns no chunk exactly when the text is empty or
    made of whitespace only. *)
Theorem split_text_empty_iff_blank (t : text) :
  _split_text p t src = [] ↔ blank t.
Proof.
  split.
  - intros Hnil. destruct (decide (blank t)) as [|Hnb]; [done|].
    exfalso. apply not_blank_sentence, split_loop_visible in Hnb.
    revert Hnil. unfold _split_text, flush.
    destruct Hnb as [Hcs | Hcur].
    + destruct (current _); [done | by apply emit_keeps].
    + destruct (current _) as [|a l] eqn:E; [by apply Exists_nil in Hcur|].
      by apply emit_visible.
  - intros Hblank. unfold _split_text, re_split_sentences.
    rewrite split_scan_blank by (done || constructor).
    change (reverse [] ++ t) with t.
    assert (Hs : strip t = []) by by apply strip_blank.
    unfold split_loop, split_step, flush. cbn [foldl current chunks curr_len].
    rewrite bool_decide_eq_true_2 by done. rewrite andb_false_r.
    cbn [current chunks app join]. by rewrite Hs.
Qed.

End BlankTextFacts.

Section ShortTextFacts.
Import Chunker ChunkShape.

Lemma split_scan_nonempty (skipping : bool) (cur s : text) :
  split_scan skipping cur s ≠ [].
Proof.
  revert skipping cur. induction s as [|c s IH]; intros skipping cur; cbn;
    [done|].
  destruct skipping; [destruct (is_space c); apply IH|].
  destruct (_ && _); [done | apply IH].
Qed.

Lemma join_cons_length (part : text) (parts : list text) :
  parts ≠ [] →
  length (join space (part :: parts))
    = (length part + 1 + length (join space parts))%nat.
Proof.
  destruct parts as [|q parts]; [done|]. intros _.
  change (join space (part :: q :: parts))
    with (part ++ space ++ join space (q :: parts)).
  rewrite !length_app. cbn [length space]. lia.
Qed.

(** The sentences joined by single spaces are no longer than the text:
    every separator had at least one character. *)
Lemma split_scan_join_length (skipping : bool) (cur s : text) :
  (length (join space (split_scan skipping cur s))
     ≤ length cur + length s)%nat.
Proof.
  revert skipping cur. induction s as [|c s IH]; intros skipping cur; cbn.
  - rewrite length_reverse. lia.
  - destruct skipping.
    + destruct (is_space c).
      * specialize (IH true cur). lia.
      * specialize (IH false [c]). cbn in IH. lia.
    + destruct (_ && _).
      * rewrite join_cons_length by apply split_scan_nonempty.
        rewrite length_reverse. specialize (IH true []). cbn in IH. lia.
      * specialize (IH false (c :: cur)). cbn in IH. lia.
Qed.

Lemma join_prefix_length (read rest : list text) :
  (length (join space read) ≤ length (join space (read ++ rest)))%nat.
Proof.
  induction rest as [|s rest IH] using rev_ind; [by rewrite app_nil_r|].
  rewrite app_assoc, join_snoc_length.
  destruct (read ++ rest) as [|a l] eqn:E; [|lia].
  apply app_nil in E as [-> _]. cbn. lia.
Qed.

Variable p : DocumentProcessor.
Variable src : string.

(** While the joined sentences stay within [chunk_size], no iteration
    cuts. *)
Lemma split_loop_uncut (rest read : list text) :
  Z.of_nat (length (join space (read ++ rest))) ≤ chunk_size p →
  foldl (split_step p src) (uncut read) rest = uncut (read ++ rest).
Proof.
  revert read. induction rest as [|s rest IH]; intros read Hfit.
  - by rewrite app_nil_r.
  - cbn [foldl].
    assert (Hstep : split_step p src (uncut read) s = uncut (read ++ [s])).
    { pose proof (join_prefix_length (read ++ [s]) rest) as Hpre.
      rewrite <- app_assoc in Hpre. cbn [app] in Hpre.
      rewrite join_snoc_length in Hpre.
      unfold split_step, uncut. cbn [chunks current curr_len].
      destruct read as [|a l] eqn:Hread.
      - rewrite bool_decide_eq_true_2 by done. rewrite andb_false_r.
        cbn [chunks current curr_len app]. f_equal; try (cbn [join]; lia).
      - rewrite <- Hread in *.
        assert (Hno : (chunk_size p
                       <? Z.of_nat (length (join space read)) + 1
                          + Z.of_nat (length s)) = false).
        { apply Z.ltb_ge. rewrite Hread in Hpre. rewrite <- Hread in Hpre.
          lia. }
        rewrite Hno. cbn [andb chunks current curr_len]. f_equal.
        rewrite join_snoc_length. rewrite Hread. rewrite <- Hread.
        destruct (read ++ [s]) as [|b l'] eqn:E;
          [by apply app_nil in E as [_ [=]]|]. lia. }
    rewrite Hstep, IH; [by rewrite <- app_assoc|].
    by rewrite <- app_assoc.
Qed.

(** A text no longer than [chunk_size] is never cut.  With [body] the
    sentences joined by single spaces and stripped, [_split_text] returns
    the single chunk of text [body], index 0 and [char_count] the length
    of [body], under the source it was given; it returns no chunk when
    [body] is the empty string. *)
Theorem split_text_short_text_single_chunk (t : text) :
  Z.of_nat (length t) ≤ chunk_size p →
  let body := strip (join space (re_split_sentences t)) in
  _split_text p t src =
    match body with
    | [] => []
    | _ => [ {| chunk_text := body;
                metadata := {| source := src;
                               chunk_idx := 0;
                               char_count := Z.of_nat (length body) |} |} ]
    end.
Proof.
  intros Hfit body.
  assert (Heq : _split_text p t src = emit src [] body).
  { unfold _split_text, split_loop.
    change {| chunks := []; current := []; curr_len := 0 |} with (uncut []).
    rewrite split_loop_uncut.
    - cbn [app]. unfold flush, uncut. cbn [current chunks].
      destruct (re_split_sentences t) as [|a l] eqn:E; [|done].
      by apply split_scan_nonempty in E.
    - cbn [app]. unfold re_split_sentences.
      pose proof (split_scan_join_length false [] t) as H. cbn in H. lia. }
  rewrite Heq. unfold emit. by destruct body.
Qed.

End ShortTextFacts.

Lemma split_text_short_text_single_chunk_witness :
  Z.of_nat (length Chunker.three_sentences)
    ≤ Chunker.chunk_size Chunker.default_processor ∧
  Chunker._split_text Chunker.default_processor Chunker.three_sentences "f.txt"
    = [ Chunker.mkChunk (txt "abc. def. ghi.")
          (Chunker.mkMetadata "f.txt" 0 14) ].
Proof.
  split; [by vm_compute|].
  apply (split_text_short_text_single_chunk Chunker.default_processor "f.txt"
           Chunker.three_sentences).
  by vm_compute.
Defined.

(** ** The evaluator: ranges, tokens and symmetry *)

Section EvaluatorRangeFacts.
Import Evaluator.

(** Every metric [evaluate] returns lies in [0, 1]; the context recall
    and the answer correctness are there exactly when a ground truth that
    is not the empty string was given. *)
Theorem evaluate_metrics_in_unit_interval
    (question answer : text) (contexts : list text)
    (ground_truth : option text) :
  let s := evaluate question answer contexts ground_truth in
  unit_score (faithfulness s) ∧
  unit_score (answer_relevancy s) ∧
  unit_score (context_precision s) ∧
  (∀ x, context_recall s = Some x → unit_score x) ∧
  (∀ x, answer_correctness s = Some x → unit_score x) ∧
  (is_Some (context_recall s) ↔
     ∃ g, ground_truth = Some g ∧ g ≠ []) ∧
  (is_Some (answer_correctness s) ↔
     ∃ g, ground_truth = Some g ∧ g ≠ []).
Proof.
  cbn zeta. unfold evaluate. cbn.
  split; [apply faithfulness_unit|].
  split; [apply answer_relevancy_unit|].
  split; [apply context_precision_unit|].
  assert (Htruthy : is_Some (truthy ground_truth) ↔
                    ∃ g, ground_truth = Some g ∧ g ≠ []).
  { destruct ground_truth as [[|c g]|]; cbn.
    - split; [by intros [? [=]] | by intros (g & [= <-] & ?)].
    - split; [intros _; by eexists | by eexists].
    - split; [by intros [? [=]] | by intros (g & [=] & ?)]. }
  split; [|split; [|split]].
  - intros x Hx. destruct (truthy ground_truth); cbn in Hx; [|done].
    injection Hx as <-. apply context_recall_unit.
  - intros x Hx. destruct (truthy ground_truth); cbn in Hx; [|done].
    injection Hx as <-. apply answer_correctness_unit.
  - rewrite <- Htruthy. by rewrite fmap_is_Some.
  - rewrite <- Htruthy. by rewrite fmap_is_Some.
Qed.

Lemma round4_le_half (q : Q) :
  (0 <= q <= 1 # 2)%Q → (round4 q <= 1 # 2)%Q.
Proof.
  intros [H0 H1]. unfold round4. rewrite inject_Z_div_10000.
  destruct (round_half_even_bounds (q * inject_Z 10000) 5000) as [Ha Hb].
  - change (inject_Z 10000) with (10000 # 1)%Q. lra.
  - change (inject_Z 10000) with (10000 # 1)%Q.
    change (inject_Z 5000) with (5000 # 1)%Q. lra.
  - unfold Qle. cbn. lia.
Qed.

(** An answer of fewer than 20 characters never gets an answer relevancy
    above 0.5, whatever the question. *)
Theorem answer_relevancy_short_answer (question answer : text) :
  (length answer < 20)%nat →
  (_answer_relevancy question answer <= 1 # 2)%Q.
Proof.
  intros Hshort. unfold _answer_relevancy.
  destruct (_ || _); [by unfold Qle|].
  destruct (bool_decide _); [by unfold Qle|].
  set (q_tokens := token_set question ∖ stopwords).
  destruct (Qmin_unit (ratio (size (q_tokens ∩ token_set answer))
                             (size q_tokens))) as [Hlo Hhi].
  { apply overlap_ratio_unit. }
  apply Nat.ltb_lt in Hshort. rewrite Hshort.
  apply round4_le_half. split; lra.
Qed.

Lemma answer_relevancy_short_answer_witness :
  (length (txt "I don't know.") < 20)%nat ∧
  (_answer_relevancy (txt "What is the capital of France?")
                     (txt "I don't know.") <= 1 # 2)%Q.
Proof.
  split; [cbn; lia|].
  apply (answer_relevancy_short_answer
           (txt "What is the capital of France?") (txt "I don't know.")).
  cbn. lia.
Defined.

End EvaluatorRangeFacts.

Section TokenFacts.
Import Evaluator TokenShape.

Lemma scan_step_ok (st : scan) (c : ascii) :
  scan_ok st → scan_ok (scan_step st c).
Proof.
  destruct st as [|run|]; cbn; intros Hst.
  - destruct (is_az c) eqn:E; cbn; [by repeat constructor | done].
  - destruct (is_az c) eqn:E; cbn; [by constructor | done].
  - done.
Qed.

Lemma scan_emit_ok (st : scan) :
  scan_ok st → Forall word_token (scan_emit st).
Proof.
  destruct st as [|run|]; intros Hst; [constructor| |constructor].
  unfold scan_emit, scan_ok in *.
  destruct (2 <=? length run)%nat eqn:E; [|constructor].
  apply Nat.leb_le in E. repeat constructor.
  - by rewrite length_reverse.
  - by apply Forall_reverse.
Qed.

Lemma findall_words_ok (st : scan) (s : text) :
  scan_ok st → Forall word_token (findall_words st s).
Proof.
  revert st. induction s as [|c s IH]; intros st Hst; cbn.
  - by apply scan_emit_ok.
  - destruct (is_word c).
    + by apply IH, scan_step_ok.
    + apply Forall_app. split; [by apply scan_emit_ok | by apply IH].
Qed.

(** Every token has at least two characters, all of them letters
    [a-z]: digits, underscores, single letters and words that touch them
    never count. *)
Theorem tokenize_letters_only (s : text) :
  Forall (λ tok, (2 ≤ length tok)%nat ∧ Forall (λ c, is_az c = true) tok)
         (_tokenize s).
Proof. unfold _tokenize. by apply (findall_words_ok Outside). Qed.

End TokenFacts.

Section RoundCompat.

Lemma round_half_even_comp (x y : Q) :
  (x == y)%Q → round_half_even x = round_half_even y.
Proof.
  intros Hxy. unfold round_half_even.
  rewrite (Qfloor_comp x y Hxy).
  assert (Hr : (x - inject_Z (Qfloor y) == y - inject_Z (Qfloor y))%Q)
    by by rewrite Hxy.
  by rewrite (Qcompare_comp _ _ Hr (1 # 2) (1 # 2) (Qeq_refl _)).
Qed.

Lemma round4_comp (x y : Q) : (x == y)%Q → round4 x = round4 y.
Proof.
  intros Hxy. unfold round4. f_equal. f_equal.
  apply round_half_even_comp. by rewrite Hxy.
Qed.

Lemma ratio_same (n : nat) : (0 < n)%nat → (ratio n n == 1)%Q.
Proof.
  intros Hn. unfold ratio. apply Qmult_inv_r.
  unfold Qeq. cbn. lia.
Qed.

End RoundCompat.

Section CorrectnessFacts.
Import Evaluator.

(** The answer correctness does not depend on which of the two strings
    is the answer and which the ground truth. *)
Theorem answer_correctness_symmetric (answer ground_truth : text) :
  _answer_correctness answer ground_truth
    = _answer_correctness ground_truth answer.
Proof.
  unfold _answer_correctness.
  rewrite (orb_comm (bool_decide (ground_truth = []))).
  destruct (_ || _); [done|].
  rewrite (comm_L (∩) (token_counter answer) (token_counter ground_truth)).
  destruct (_ =? 0)%nat; [done|].
  apply round4_comp.
  generalize (ratio (size (token_counter ground_truth ∩ token_counter answer))
                    (size (token_counter answer))).
  generalize (ratio (size (token_counter ground_truth ∩ token_counter answer))
                    (size (token_counter ground_truth))).
  intros r q. unfold Qdiv. rewrite (Qplus_comm q r). ring.
Qed.

(** A string compared with itself has the answer correctness 1 when it
    has a token, and 0 when it has none. *)
Theorem answer_correctness_identical (answer : text) :
  (_answer_correctness answer answer
   == if bool_decide (_tokenize answer = []) then 0 else 1)%Q.
Proof.
  unfold _answer_correctness.
  destruct (bool_decide (answer = [])) eqn:Ea; cbn [orb].
  { apply bool_decide_eq_true in Ea. subst. by vm_compute. }
  assert (Hcap : token_counter answer ∩ token_counter answer
                 = token_counter answer) by multiset_solver.
  rewrite Hcap.
  assert (Hsize : size (token_counter answer) = length (_tokenize answer)).
  { unfold token_counter.
    induction (_tokenize answer) as [|tok l IH]; [done|].
    rewrite list_to_set_disj_cons, gmultiset_size_disj_union,
      gmultiset_size_singleton, IH.
    done. }
  rewrite Hsize.
  destruct (_tokenize answer) as [|tok l] eqn:Et.
  - by rewrite bool_decide_eq_true_2.
  - rewrite bool_decide_eq_false_2 by done.
    change (length (tok :: l) =? 0)%nat with false. cbv iota.
    assert (H1 : (ratio (length (tok :: l)) (length (tok :: l)) == 1)%Q)
      by (apply ratio_same; cbn; lia).
    assert (Hf : (2 * ratio (length (tok :: l)) (length (tok :: l))
                    * ratio (length (tok :: l)) (length (tok :: l))
                  / (ratio (length (tok :: l)) (length (tok :: l))
                     + ratio (length (tok :: l)) (length (tok :: l)))
                  == 1)%Q).
    { rewrite H1. by vm_compute. }
    rewrite (round4_comp _ _ Hf). by vm_compute.
Qed.

End CorrectnessFacts.

(** ** The evaluator: letter case *)

Section CaseFacts.
Import Evaluator.

Lemma lower_char_idem (c : ascii) : lower_char (lower_char c) = lower_char c.
Proof. destruct c as [[] [] [] [] [] [] [] []]; by vm_compute. Qed.

Lemma is_space_lower (c : ascii) : is_space (lower_char c) = is_space c.
Proof. destruct c as [[] [] [] [] [] [] [] []]; by vm_compute. Qed.

Lemma is_terminator_lower (c : ascii) :
  is_terminator (lower_char c) = is_terminator c.
Proof. destruct c as [[] [] [] [] [] [] [] []]; by vm_compute. Qed.

Lemma lower_idem (s : text) : lower (lower s) = lower s.
Proof.
  unfold lower. rewrite <- list_fmap_compose.
  apply list_fmap_ext. intros _ c _. apply lower_char_idem.
Qed.

Lemma lower_nil (s : text) : lower s = [] ↔ s = [].
Proof. unfold lower. split; [apply fmap_nil_inv | by intros ->]. Qed.

Lemma lower_app (s u : text) : lower (s ++ u) = lower s ++ lower u.
Proof. apply fmap_app. Qed.

Lemma lower_reverse (s : text) : lower (reverse s) = reverse (lower s).
Proof. apply fmap_reverse. Qed.

Lemma lower_join (parts : list text) :
  lower (join space parts) = join space (lower <$> parts).
Proof.
  induction parts as [|p parts IH]; [done|].
  destruct parts as [|q parts]; [done|].
  change (join space (p :: q :: parts))
    with (p ++ space ++ join space (q :: parts)).
  rewrite !lower_app, IH. done.
Qed.

Lemma lstrip_lower (s : text) : lstrip (lower s) = lower (lstrip s).
Proof.
  induction s as [|c s IH]; [done|]. cbn.
  rewrite is_space_lower. by destruct (is_space c).
Qed.

Lemma strip_lower (s : text) : strip (lower s) = lower (strip s).
Proof.
  unfold strip.
  by rewrite lstrip_lower, <- lower_reverse, lstrip_lower, <- lower_reverse.
Qed.

Lemma split_scan_lower (skipping : bool) (cur s : text) :
  split_scan skipping (lower cur) (lower s)
    = lower <$> split_scan skipping cur s.
Proof.
  revert skipping cur. induction s as [|c s IH]; intros skipping cur; cbn.
  - by rewrite lower_reverse.
  - rewrite is_space_lower. destruct skipping.
    + destruct (is_space c); [apply IH | apply (IH false [c])].
    + assert (Hhead : from_option is_terminator false (head (lower cur))
                      = from_option is_terminator false (head cur)).
      { destruct cur; [done|]. cbn. apply is_terminator_lower. }
      rewrite Hhead. destruct (_ && _).
      * cbn. rewrite lower_reverse. f_equal. apply (IH true []).
      * apply (IH false (c :: cur)).
Qed.

Lemma filter_nonempty_lower (l : list (list ascii)) :
  filter (λ t, t ≠ []) (lower <$> l) = lower <$> filter (λ t, t ≠ []) l.
Proof.
  induction l as [|piece l IH]; [done|].
  rewrite fmap_cons, !filter_cons.
  case_decide as Hlow; case_decide as Hpiece.
  - rewrite fmap_cons. f_equal. exact IH.
  - exfalso. apply Hlow. by rewrite Hpiece.
  - exfalso. by apply Hpiece, lower_nil.
  - exact IH.
Qed.

Lemma split_sentences_lower (s : text) :
  _split_sentences (lower s) = lower <$> _split_sentences s.
Proof.
  unfold _split_sentences, re_split_sentences.
  pose proof (split_scan_lower false [] s) as Hscan.
  change (lower []) with (@nil ascii) in Hscan. rewrite Hscan. clear Hscan.
  rewrite <- filter_nonempty_lower. f_equal.
  rewrite <- !list_fmap_compose. apply list_fmap_ext.
  intros _ piece _. cbn. apply strip_lower.
Qed.

Lemma tokenize_lower (s : text) : _tokenize (lower s) = _tokenize s.
Proof. unfold _tokenize. by rewrite lower_idem. Qed.

Lemma token_set_lower (s : text) : token_set (lower s) = token_set s.
Proof. unfold token_set. by rewrite tokenize_lower. Qed.

Lemma token_set_join_lower (parts : list text) :
  token_set (join space (lower <$> parts)) = token_set (join space parts).
Proof. by rewrite <- lower_join, token_set_lower. Qed.

Lemma lower_list_nil (parts : list text) :
  bool_decide (lower <$> parts = []) = bool_decide (parts = []).
Proof. by destruct parts. Qed.

Lemma lower_is_nil (s : text) :
  bool_decide (lower s = []) = bool_decide (s = []).
Proof. by destruct s. Qed.

Lemma length_filter_fmap {A B} (f : A → B) (P : B → Prop)
    `{!∀ x, Decision (P x)} (l : list A) :
  length (filter P (f <$> l)) = length (filter (λ x, P (f x)) l).
Proof.
  induction l as [|x l IH]; [done|].
  cbn [fmap list_fmap]. rewrite !filter_cons.
  fold (f <$> l). destruct (decide (P (f x))); cbn; by rewrite IH.
Qed.

End CaseFacts.

Section CaseInsensitive.
Import Evaluator.

Lemma faithfulness_lower_contexts (answer : text) (contexts : list text) :
  _faithfulness answer (lower <$> contexts) = _faithfulness answer contexts.
Proof.
  unfold _faithfulness. by rewrite lower_list_nil, <- lower_join, lower_idem.
Qed.

Lemma faithfulness_lower_answer (answer : text) (contexts : list text) :
  _faithfulness (lower answer) contexts = _faithfulness answer contexts.
Proof.
  unfold _faithfulness.
  rewrite lower_is_nil, split_sentences_lower, lower_list_nil, length_fmap.
  destruct (_ || _); [done|]. destruct (bool_decide _); [done|].
  f_equal. f_equal.
  rewrite length_filter_fmap. f_equal.
  apply list_filter_iff. intros sent. by rewrite token_set_lower.
Qed.

Lemma answer_relevancy_lower_question (question answer : text) :
  _answer_relevancy (lower question) answer
    = _answer_relevancy question answer.
Proof.
  unfold _answer_relevancy. by rewrite lower_is_nil, token_set_lower.
Qed.

(** The length of the answer enters the score. *)
Lemma answer_relevancy_lower_answer (question answer : text) :
  length (lower answer) = length answer →
  _answer_relevancy question (lower answer)
    = _answer_relevancy question answer.
Proof.
  intros Hlen. unfold _answer_relevancy.
  by rewrite lower_is_nil, token_set_lower, Hlen.
Qed.

Lemma context_precision_lower (question : text) (contexts : list text) :
  _context_precision (lower question) (lower <$> contexts)
    = _context_precision question contexts.
Proof.
  unfold _context_precision.
  rewrite lower_list_nil, token_set_lower, length_fmap.
  destruct (bool_decide _); [done|]. destruct (bool_decide _); [done|].
  f_equal. f_equal.
  rewrite length_filter_fmap. f_equal.
  apply list_filter_iff. intros ctx. by rewrite token_set_lower.
Qed.

Lemma context_recall_lower (contexts : list text) (ground_truth : text) :
  _context_recall (lower <$> contexts) (lower ground_truth)
    = _context_recall contexts ground_truth.
Proof.
  unfold _context_recall.
  by rewrite lower_list_nil, lower_is_nil, token_set_lower,
    token_set_join_lower.
Qed.

Lemma answer_correctness_lower_truth (answer ground_truth : text) :
  _answer_correctness answer (lower ground_truth)
    = _answer_correctness answer ground_truth.
Proof.
  unfold _answer_correctness, token_counter.
  by rewrite lower_is_nil, tokenize_lower.
Qed.

Lemma answer_correctness_lower_answer (answer ground_truth : text) :
  _answer_correctness (lower answer) ground_truth
    = _answer_correctness answer ground_truth.
Proof.
  unfold _answer_correctness, token_counter.
  by rewrite lower_is_nil, tokenize_lower.
Qed.

Lemma truthy_lower (ground_truth : option text) :
  truthy (lower <$> ground_truth) = lower <$> truthy ground_truth.
Proof. by destruct ground_truth as [[|c g]|]. Qed.

(** The evaluation does not see the letter case of the question, of the
    contexts and of the ground truth: lower-casing them changes no score,
    nor the aggregate, nor the label.  It sees the letter case of the
    answer through the length of the answer only, which enters the
    answer relevancy: lower-casing an answer whose length this keeps
    changes nothing either. *)
Theorem evaluate_case_insensitive
    (question answer : text) (contexts : list text)
    (ground_truth : option text) :
  evaluate (lower question) answer (lower <$> contexts)
           (lower <$> ground_truth)
    = evaluate question answer contexts ground_truth ∧
  (length (lower answer) = length answer →
   evaluate question (lower answer) contexts ground_truth
     = evaluate question answer contexts ground_truth).
Proof.
  split.
  - unfold evaluate.
    rewrite faithfulness_lower_contexts, answer_relevancy_lower_question,
      context_precision_lower, truthy_lower.
    destruct (truthy ground_truth) as [g|];
      cbn [fmap option_fmap option_map]; [|done].
    by rewrite context_recall_lower, answer_correctness_lower_truth.
  - intros Hlen. unfold evaluate.
    rewrite faithfulness_lower_answer, answer_relevancy_lower_answer by done.
    destruct (truthy ground_truth) as [g|];
      cbn [fmap option_fmap option_map]; [|done].
    by rewrite answer_correctness_lower_answer.
Qed.

(** The same on a question in capitals. *)
Example evaluate_capitals :
  evaluate (txt "WHAT IS THE CAPITAL OF FRANCE?") paris_answer
           paris_contexts None
  = evaluate (txt "what is the capital of france?") paris_answer
             paris_contexts None.
Proof. by vm_compute. Qed.

End CaseInsensitive.

(** ** The re-ranker: ties, permutations and missing keys *)

Section StableSortFacts.
Import Rerank RerankOrder.
Context {A : Type}.
Implicit Types (x : Q * A) (l : list (Q * A)).

Lemma Qgtb_not_eq (a b : Q) : Qgtb a b = true → ¬ (a == b)%Q.
Proof.
  unfold Qgtb. intros H%negb_true_iff Heq.
  assert (Hle : Qle_bool a b = true) by (apply Qle_bool_iff; lra).
  congruence.
Qed.

Lemma insert_desc_filter (q : Q) x l :
  filter (scored q) (insert_desc x l) = filter (scored q) (x :: l).
Proof.
  induction l as [|y l IH]; [done|]. cbn [insert_desc].
  destruct (Qgtb y.1 x.1) eqn:E; [|done].
  rewrite filter_cons, IH, !filter_cons.
  repeat case_decide; try done.
  exfalso. apply (Qgtb_not_eq _ _ E). unfold scored in *. lra.
Qed.

(** Among the elements of one key, the sort keeps the input order. *)
Lemma sorted_desc_filter (q : Q) l :
  filter (scored q) (sorted_desc l) = filter (scored q) l.
Proof.
  induction l as [|x l IH]; [done|].
  change (sorted_desc (x :: l)) with (insert_desc x (sorted_desc l)).
  by rewrite insert_desc_filter, !filter_cons, IH.
Qed.

End StableSortFacts.

Section RerankOrderFacts.
Import Rerank RerankOrder.

Lemma filter_fmap_list {A B} (f : A → B) (P : B → Prop)
    `{!∀ y, Decision (P y)} (l : list A) :
  filter P (f <$> l) = f <$> filter (λ x, P (f x)) l.
Proof.
  induction l as [|x l IH]; [done|].
  rewrite fmap_cons, !filter_cons. case_decide.
  - rewrite fmap_cons. f_equal. exact IH.
  - exact IH.
Qed.

Lemma filter_ext_in {A} (P1 P2 : A → Prop)
    `{!∀ x, Decision (P1 x)} `{!∀ x, Decision (P2 x)} (l : list A) :
  (∀ x, x ∈ l → P1 x ↔ P2 x) → filter P1 l = filter P2 l.
Proof.
  induction l as [|x l IH]; intros Hext; [done|].
  rewrite !filter_cons.
  assert (Hx : P1 x ↔ P2 x) by (apply Hext; left).
  rewrite IH by (intros y Hy; apply Hext; by right).
  repeat case_decide; tauto || done.
Qed.

Lemma StronglySorted_fmap_in {A B} (R1 : relation A) (R2 : relation B)
    (f : A → B) (l : list A) :
  (∀ x y, x ∈ l → y ∈ l → R1 x y → R2 (f x) (f y)) →
  StronglySorted R1 l → StronglySorted R2 (f <$> l).
Proof.
  intros Hf Hl. induction Hl as [|x l Hl IH Hx]; [constructor|].
  cbn. constructor.
  - apply IH. intros a b' Ha Hb. apply Hf; by right.
  - apply Forall_fmap, Forall_forall. intros y Hy. cbn.
    apply Hf; [left | by right|].
    by apply (proj1 (Forall_forall _ _) Hx).
Qed.

(** The ranking of the candidates under a scoring [k]: a permutation of
    the candidates, in descending order of score, in which the candidates
    of one score are in their input order. *)
Lemma ranking_stable (k : loc → Q) (documents : list loc) :
  let ranked := (sorted_desc ((λ doc, (k doc, doc)) <$> documents)).*2 in
  ranked ≡ₚ documents ∧
  StronglySorted (λ a b, (k b <= k a)%Q) ranked ∧
  ∀ q, filter (scored_by k q) ranked = filter (scored_by k q) documents.
Proof.
  set (keyed := (λ doc, (k doc, doc)) <$> documents).
  assert (Hdocs : keyed.*2 = documents).
  { unfold keyed. rewrite <- list_fmap_compose.
    rewrite <- (list_fmap_id documents) at 2. by apply list_fmap_ext. }
  assert (Hkey : ∀ x, x ∈ keyed → x.1 = k x.2).
  { intros x (doc & -> & _)%list_elem_of_fmap. done. }
  cbn zeta. split; [|split].
  - etransitivity; [apply fmap_Permutation, sorted_desc_perm|].
    by rewrite Hdocs.
  - apply (StronglySorted_fmap_in above); [|apply sorted_desc_sorted].
    intros x y Hx Hy Hxy. rewrite sorted_desc_perm in Hx, Hy.
    unfold above in Hxy. by rewrite <- (Hkey x Hx), <- (Hkey y Hy).
  - intros q. rewrite filter_fmap_list.
    rewrite (filter_ext_in _ (scored q)).
    + rewrite sorted_desc_filter.
      rewrite <- (filter_ext_in (λ x, scored_by k q x.2) (scored q)).
      * by rewrite <- filter_fmap_list, Hdocs.
      * intros x Hx. unfold scored_by, scored. by rewrite (Hkey x Hx).
    + intros x Hx. rewrite sorted_desc_perm in Hx.
      unfold scored_by, scored. by rewrite (Hkey x Hx).
Qed.

(** With an active scoring service, the list [rerank] returns is the
    [top_k] slice of the ranking of the candidates: the permutation of
    the candidates that is in descending order of stored score and keeps
    the candidates of one stored score in their input order (these three
    conditions leave one list only).  With a [top_k] of at least the
    number of candidates, the returned list is itself a permutation of
    the candidates. *)
Theorem rerank_stable_permutation
    (name : string) (m : scorer) (h : store) (query : text)
    (documents : list loc) (top_k : Z) :
  well_formed h documents →
  ∃ o ranked,
    rerank (mkReranker name (Some m)) h query documents top_k = Ok o ∧
    returned o = slice_to top_k ranked ∧
    ranked ≡ₚ documents ∧
    StronglySorted
      (λ a b, (stored_score m h query b <= stored_score m h query a)%Q)
      ranked ∧
    (∀ q, filter (scored_by (stored_score m h query) q) ranked
          = filter (scored_by (stored_score m h query) q) documents) ∧
    (Z.of_nat (length documents) ≤ top_k → returned o ≡ₚ documents).
Proof.
  intros Hwf.
  destruct (decide (documents = [])) as [->|Hne].
  { exists (mkOutcome [] h []), [].
    split; [done|]. split; [unfold slice_to; by rewrite take_nil|].
    split; [done|]. split; [constructor|]. by split. }
  destruct (ranking_stable (stored_score m h query) documents)
    as (Hperm & Hsorted & Hstable).
  eexists _, _. split; [by apply rerank_active|]. cbn [returned].
  split; [done|]. split; [exact Hperm|]. split; [exact Hsorted|].
  split; [exact Hstable|].
  intros Hk. rewrite <- Hperm at 2. unfold slice_to.
  destruct (top_k <? 0) eqn:E; [lia|].
  rewrite take_ge; [done|].
  rewrite (Permutation_length Hperm). lia.
Qed.

Lemma rerank_stable_permutation_witness :
  well_formed three_hits three_candidates ∧
  ∃ o ranked,
    rerank (mkReranker "m" (Some by_length)) three_hits (txt "q")
      three_candidates 2 = Ok o ∧
    returned o = slice_to 2 ranked ∧
    ranked ≡ₚ three_candidates ∧
    StronglySorted
      (λ a b, (stored_score by_length three_hits (txt "q") b
               <= stored_score by_length three_hits (txt "q") a)%Q)
      ranked ∧
    (∀ q, filter (scored_by (stored_score by_length three_hits (txt "q")) q)
            ranked
          = filter (scored_by (stored_score by_length three_hits (txt "q")) q)
              three_candidates) ∧
    (Z.of_nat (length three_candidates) ≤ 2 →
     returned o ≡ₚ three_candidates).
Proof.
  assert (Hwf : well_formed three_hits three_candidates).
  { intros doc Hdoc. unfold three_candidates in Hdoc.
    repeat (apply elem_of_cons in Hdoc as [-> | Hdoc];
            [eexists _, _; split; by vm_compute|]).
    by apply elem_of_nil in Hdoc. }
  split; [exact Hwf|].
  exact (rerank_stable_permutation "m" by_length three_hits (txt "q")
           three_candidates 2 Hwf).
Defined.

(** Two hits of one score around a better one: the better one comes
    first, the other two follow in their input order. *)
Example rerank_keeps_tie_order :
  returned <$> rerank length_reranker three_hits (txt "q") three_candidates 3
    = Ok [2%positive; 1%positive; 3%positive].
Proof. by vm_compute. Qed.

End RerankOrderFacts.

Section RerankErrorFacts.
Import Rerank RerankOrder.

Lemma traverse_raise {A B} (f : A → result B) (e : exn) (l : list A) :
  (∀ x, x ∈ l → f x = Raise e ∨ ∃ y, f x = Ok y) →
  (∃ x, x ∈ l ∧ f x = Raise e) →
  traverse f l = Raise e.
Proof.
  induction l as [|x l IH]; intros Hall (bad & Hin & Hbad).
  - by apply elem_of_nil in Hin.
  - cbn. destruct (Hall x) as [Hx | [y Hx]]; [by left | by rewrite Hx|].
    rewrite Hx. cbn. rewrite IH; [done| |].
    + intros z Hz. apply Hall. by right.
    + apply elem_of_cons in Hin as [-> | Hin]; [congruence|]. eauto.
Qed.

(** With an active scoring service, a candidate without the key
    ["text"] makes [rerank] raise [KeyError], the other candidates being
    dicts whose ["text"], if any, is a string. *)
Theorem rerank_missing_text_raises
    (name : string) (m : scorer) (h : store) (query : text)
    (documents : list loc) (top_k : Z) :
  text_if_any h documents →
  (∃ doc d, doc ∈ documents ∧ h !! doc = Some d ∧ d !! "text" = None) →
  rerank (mkReranker name (Some m)) h query documents top_k = Raise KeyError.
Proof.
  intros Hany (bad & d & Hin & Hd & Hnone). unfold rerank.
  destruct documents as [|x l] eqn:Hdocs; [by apply elem_of_nil in Hin|].
  rewrite <- Hdocs in *. cbn [_model].
  rewrite (traverse_raise (pair_of h query) KeyError); [done| |].
  - intros doc Hdoc. destruct (Hany doc Hdoc) as (d' & Hd' & Htext).
    unfold pair_of, getitem. rewrite Hd'. cbn.
    destruct (d' !! "text") as [v|] eqn:Hv; [|by left].
    destruct (Htext v eq_refl) as [t ->]. right. by eexists.
  - exists bad. split; [done|].
    unfold pair_of, getitem. rewrite Hd. cbn. by rewrite Hnone.
Qed.

Lemma textless_hits_text_if_any : text_if_any textless_hits two_candidates.
Proof.
  intros doc Hdoc. unfold two_candidates in Hdoc.
  apply elem_of_cons in Hdoc as [-> | Hdoc].
  { exists {[ "text" := VStr (txt "ab") ]}. split; [done|].
    intros v Hv. exists (txt "ab").
    apply lookup_singleton_Some in Hv as [_ <-]. done. }
  apply elem_of_cons in Hdoc as [-> | Hdoc]; [|by apply elem_of_nil in Hdoc].
  exists {[ "score" := VFloat 1 ]}. split; [done|].
  intros v Hv. by apply lookup_singleton_Some in Hv as [[=] _].
Qed.

Lemma rerank_missing_text_raises_witness :
  (text_if_any textless_hits two_candidates ∧
   ∃ doc d, doc ∈ two_candidates ∧ textless_hits !! doc = Some d
            ∧ d !! "text" = None) ∧
  rerank (mkReranker "m" (Some by_length)) textless_hits (txt "q")
    two_candidates 3 = Raise KeyError.
Proof.
  assert (Hbad : ∃ doc d, doc ∈ two_candidates
                          ∧ textless_hits !! doc = Some d
                          ∧ d !! "text" = None).
  { exists 2%positive, {[ "score" := VFloat 1 ]}.
    split; [unfold two_candidates; set_solver|]. by split. }
  split; [split; [apply textless_hits_text_if_any | exact Hbad]|].
  apply (rerank_missing_text_raises "m" by_length textless_hits (txt "q")
           two_candidates 3);
    [apply textless_hits_text_if_any | exact Hbad].
Defined.

End RerankErrorFacts.

Section RerankAgainFacts.
Import Rerank RerankOrder.

Variable m : scorer.
Variable h : store.
Variable query : text.
Variable documents : list loc.

Lemma rescored_text_of (doc : loc) :
  text_of (rescored m h query documents) doc = text_of h doc.
Proof.
  unfold text_of, rescored. rewrite write_scores_lookup.
  destruct (decide (doc ∈ documents)); [|done].
  destruct (h !! doc) as [d|]; cbn; [|done].
  by rewrite lookup_insert_ne.
Qed.

Lemma rescored_well_formed :
  well_formed h documents →
  well_formed (rescored m h query documents) documents.
Proof.
  intros Hwf doc Hdoc. destruct (Hwf doc Hdoc) as (d & t & Hd & Ht).
  exists (<["rerank_score" :=
             VFloat (round4 (stored_score_raw m h query doc))]> d), t.
  unfold rescored. rewrite write_scores_lookup, decide_True by done.
  rewrite Hd. cbn. split; [done|]. by rewrite lookup_insert_ne.
Qed.

Lemma rescored_again :
  rescored m (rescored m h query documents) query documents
    = rescored m h query documents.
Proof.
  apply map_eq. intros doc. unfold rescored at 1.
  rewrite write_scores_lookup.
  destruct (decide (doc ∈ documents)) as [Hin|]; [|done].
  unfold stored_score_raw. rewrite rescored_text_of.
  unfold rescored. rewrite write_scores_lookup, decide_True by done.
  destruct (h !! doc) as [d|]; cbn; [|done].
  unfold stored_score_raw. by rewrite insert_insert_eq.
Qed.

(** Re-ranking the same candidates for the same query a second time, on
    the store the first call left, sends the same batch to the service,
    leaves the store as it is and returns the same list. *)
Theorem rerank_again_changes_nothing (name : string) (top_k : Z) :
  well_formed h documents →
  ∃ o, rerank (mkReranker name (Some m)) h query documents top_k = Ok o ∧
       rerank (mkReranker name (Some m)) (store_after o) query documents
              top_k = Ok o.
Proof.
  intros Hwf.
  destruct (decide (documents = [])) as [Hnil|Hne].
  { exists (mkOutcome [] h []). by rewrite Hnil. }
  eexists. split; [by apply rerank_active|]. cbn [store_after].
  fold (rescored m h query documents).
  rewrite rerank_active by (done || by apply rescored_well_formed).
  fold (rescored m (rescored m h query documents) query documents).
  rewrite rescored_again. f_equal. f_equal.
  - f_equal. apply list_fmap_ext. intros _ doc _.
    by rewrite rescored_text_of.
  - f_equal. f_equal. f_equal. apply list_fmap_ext. intros _ doc _.
    unfold stored_score. by rewrite rescored_text_of.
Qed.

End RerankAgainFacts.

Lemma rerank_again_changes_nothing_witness :
  Rerank.well_formed Rerank.two_hits Rerank.two_candidates ∧
  ∃ o, Rerank.rerank (Rerank.mkReranker "m" (Some Rerank.by_length))
         Rerank.two_hits (txt "q") Rerank.two_candidates 1 = Ok o ∧
       Rerank.rerank (Rerank.mkReranker "m" (Some Rerank.by_length))
         (Rerank.store_after o) (txt "q") Rerank.two_candidates 1 = Ok o.
Proof.
  split; [apply two_hits_well_formed|].
  apply (rerank_again_changes_nothing Rerank.by_length Rerank.two_hits
           (txt "q") Rerank.two_candidates "m" 1).
  apply two_hits_well_formed.
Defined.

(** ** The vector store: listing, ingestion and retrieval *)

Section ListSourcesFacts.
Import Store StoreViews.

Lemma elem_of_sources (c : collection) (s : string) :
  s ∈ sources c ↔ ∃ id e, c !! id = Some e ∧ has_source s e.
Proof.
  unfold sources. rewrite elem_of_list_to_set, list_elem_of_fmap. split.
  - intros ([id e] & -> & Hin%elem_of_map_to_list). by exists id, e.
  - intros (id & e & Hc & <-). exists (id, e).
    split; [done | by apply elem_of_map_to_list].
Qed.

Lemma elem_of_list_sources (c : collection) (s : string) :
  s ∈ list_sources c ↔ ∃ id e, c !! id = Some e ∧ has_source s e.
Proof.
  unfold list_sources. destruct (count c =? 0) eqn:E.
  - apply Z.eqb_eq in E. unfold count in E.
    assert (Hc : c = ∅) by (apply map_size_empty_iff; lia). subst c.
    split; [by intros ?%elem_of_nil|].
    intros (id & e & Hc & _). by rewrite lookup_empty in Hc.
  - rewrite merge_sort_Permutation, elem_of_elements.
    apply elem_of_sources.
Qed.

(** [list_sources] returns the sources of the stored entries, each one
    once, in ascending order. *)
Theorem list_sources_sorted_distinct (c : collection) :
  StronglySorted String.le (list_sources c) ∧
  NoDup (list_sources c) ∧
  ∀ s, s ∈ list_sources c ↔ ∃ id e, c !! id = Some e ∧ has_source s e.
Proof.
  split; [|split; [|apply elem_of_list_sources]].
  - unfold list_sources. destruct (count c =? 0); [constructor|].
    apply StronglySorted_merge_sort; apply _.
  - unfold list_sources. destruct (count c =? 0); [constructor|].
    rewrite merge_sort_Permutation. apply NoDup_elements.
Qed.

(** After a [delete_source] that succeeded the source is no longer
    listed, the other sources are listed as before, and fewer entries are
    stored; when it raises, the source was not listed. *)
Theorem delete_source_unlists (c : collection) (src : string) :
  match delete_source c src with
  | Ok c' =>
      (src ∉ list_sources c') ∧
      (∀ s, s ≠ src → s ∈ list_sources c' ↔ s ∈ list_sources c) ∧
      count c' < count c
  | Raise _ => src ∉ list_sources c
  end.
Proof.
  pose proof (elem_of_list_sources c) as Hc.
  unfold delete_source.
  destruct (get_ids c src) as [|id ids] eqn:Hids.
  - rewrite Hc. intros (id & e & Hid & Hsrc).
    assert (Hin : id ∈ get_ids c src) by (apply elem_of_get_ids; eauto).
    rewrite Hids in Hin. by apply elem_of_nil in Hin.
  - rewrite <- Hids, delete_ids_source.
    set (c' := filter (λ kv : string * entry, ¬ has_source src kv.2) c).
    pose proof (elem_of_list_sources c') as Hc'.
    split; [|split].
    + rewrite Hc'. intros (k & e & Hk & Hsrc).
      apply map_lookup_filter_Some in Hk as [_ Hno]. by apply Hno.
    + intros s Hs. rewrite Hc, Hc'. split.
      * intros (k & e & Hk & Hsrc).
        apply map_lookup_filter_Some in Hk as [Hk _]. eauto.
      * intros (k & e & Hk & Hsrc). exists k, e. split; [|done].
        apply map_lookup_filter_Some. split; [done|]. cbn.
        unfold has_source in *. congruence.
    + assert (Hin : id ∈ get_ids c src) by (rewrite Hids; left).
      apply elem_of_get_ids in Hin as (e & Hid & Hsrc).
      assert (Hsub : c' ⊆ delete id c).
      { apply map_subseteq_spec. intros k x Hk.
        apply map_lookup_filter_Some in Hk as [Hk Hno].
        rewrite lookup_delete_ne; [done|]. intros <-.
        rewrite Hid in Hk. injection Hk as <-. by apply Hno. }
      apply map_subseteq_size in Hsub.
      rewrite map_size_delete, Hid in Hsub.
      assert (Hpos : size c ≠ 0%nat).
      { apply map_size_non_empty_iff. intros ->.
        by rewrite lookup_empty in Hid. }
      unfold count. cbn in Hsub. lia.
Qed.

End ListSourcesFacts.

Section IngestFacts.
Import Store StoreViews.

Lemma split_text_numbered (p : Chunker.DocumentProcessor) (t : text)
    (src : string) :
  Chunker.numbered (Chunker._split_text p t src).
Proof.
  unfold Chunker._split_text, Chunker.flush.
  pose proof (split_loop_numbered p src (re_split_sentences t)) as H.
  destruct (Chunker.current _); [exact H|].
  by apply (emit_numbered src).
Qed.


(** Chunks of distinct indices get distinct ids. *)
Lemma batch_ids_distinct (name : string)
    (chunks : list Chunker.DocumentChunk) :
  NoDup (Chunker.idx_of <$> chunks) → NoDup (batch_of name chunks).*1.
Proof.
  intros Hnd. unfold batch_of. rewrite <- list_fmap_compose.
  assert (Heq : (fst ∘ (λ ch, (chunk_id name ch, entry_of ch))) <$> chunks
                = (λ i, name +:+ "_chunk_" +:+ pretty i)
                    <$> (Chunker.idx_of <$> chunks)).
  { rewrite <- list_fmap_compose. apply list_fmap_ext. by intros _ ch _. }
  rewrite Heq.
  assert (Hinj : Inj (=) (=) (λ i : Z, name +:+ "_chunk_" +:+ pretty i)).
  { intros i j Hij. by apply (inj _), (inj _), (inj pretty) in Hij. }
  by apply (NoDup_fmap_2 _).
Qed.

Lemma numbered_distinct (chunks : list Chunker.DocumentChunk) :
  Chunker.numbered chunks → NoDup (Chunker.idx_of <$> chunks).
Proof.
  unfold Chunker.numbered. intros ->.
  apply (NoDup_fmap_2 _), NoDup_seq.
Qed.

(** What an upsert of chunks of distinct indices stores. *)
Lemma add_documents_stores (ups : upsert_service) (c : collection)
    (chunks : list Chunker.DocumentChunk) (name : string) :
  upserts ups → NoDup (Chunker.idx_of <$> chunks) →
  add_documents ups c chunks name
    = Ok (list_to_map (batch_of name chunks) ∪ c).
Proof.
  intros Hups Hnd. unfold add_documents.
  destruct chunks as [|ch rest] eqn:E.
  - cbn. by rewrite (left_id_L ∅ (∪)).
  - rewrite <- E in *. apply Hups. by apply batch_ids_distinct.
Qed.

End IngestFacts.

Section IngestTheorems.
Import Store StoreViews.

Lemma batch_lookup (name : string) (chunks : list Chunker.DocumentChunk)
    (c : collection) (ch : Chunker.DocumentChunk) :
  NoDup (Chunker.idx_of <$> chunks) → ch ∈ chunks →
  (list_to_map (batch_of name chunks) ∪ c) !! chunk_id name ch
    = Some (entry_of ch).
Proof.
  intros Hnd Hin. apply lookup_union_Some_l.
  apply elem_of_list_to_map; [by apply batch_ids_distinct|].
  unfold batch_of. apply list_elem_of_fmap. by exists ch.
Qed.

Lemma batch_lookup_other (name : string)
    (chunks : list Chunker.DocumentChunk) (c : collection) (id : string) :
  id ∉ (batch_of name chunks).*1 →
  (list_to_map (batch_of name chunks) ∪ c) !! id = c !! id.
Proof. intros Hid. by apply lookup_union_r, not_elem_of_list_to_map. Qed.



(** Ingesting the same chunks under the same name a second time changes
    nothing. *)
Theorem reingest_same_chunks_idempotent
    (ups : upsert_service) (c : collection)
    (chunks : list Chunker.DocumentChunk) (name : string) :
  upserts ups → NoDup (Chunker.idx_of <$> chunks) →
  ∃ c', add_documents ups c chunks name = Ok c' ∧
        add_documents ups c' chunks name = Ok c'.
Proof.
  intros Hups Hnd. eexists. split; [by apply add_documents_stores|].
  rewrite add_documents_stores by done.
  by rewrite (assoc_L (∪)), (idemp_L (∪)).
Qed.

End IngestTheorems.

Section IngestDeleteFacts.
Import Store StoreViews.

Lemma strict_upsert_contract : upserts strict_upsert.
Proof.
  intros c batch Hnd. unfold strict_upsert. by rewrite decide_True.
Qed.

Lemma three_chunks_distinct :
  NoDup (Chunker.idx_of
           <$> Chunker._split_text Chunker.no_overlap
                 Chunker.three_sentences "f.txt").
Proof. apply numbered_distinct, split_text_numbered. Qed.

Lemma reingest_same_chunks_idempotent_witness :
  (upserts strict_upsert ∧
   NoDup (Chunker.idx_of
            <$> Chunker._split_text Chunker.no_overlap
                  Chunker.three_sentences "f.txt")) ∧
  ∃ c', add_documents strict_upsert two_entries
          (Chunker._split_text Chunker.no_overlap
             Chunker.three_sentences "f.txt") "f.txt" = Ok c' ∧
        add_documents strict_upsert c'
          (Chunker._split_text Chunker.no_overlap
             Chunker.three_sentences "f.txt") "f.txt" = Ok c'.
Proof.
  split; [split; [apply strict_upsert_contract | apply three_chunks_distinct]|].
  apply (reingest_same_chunks_idempotent strict_upsert two_entries
           (Chunker._split_text Chunker.no_overlap
              Chunker.three_sentences "f.txt") "f.txt");
    [apply strict_upsert_contract | apply three_chunks_distinct].
Defined.

(** Ingesting the chunks of a text and then deleting their source gives
    the collection back, when the collection had no entry of that source
    and none of the new ids, and the text gave at least one chunk. *)
Theorem ingest_then_delete_restores
    (ups : upsert_service) (c : collection)
    (p : Chunker.DocumentProcessor) (t : text) (src name : string) :
  upserts ups →
  (∀ id e, c !! id = Some e → ¬ has_source src e) →
  (∀ id, id ∈ (batch_of name (Chunker._split_text p t src)).*1 →
         c !! id = None) →
  Chunker._split_text p t src ≠ [] →
  ∃ c', add_documents ups c (Chunker._split_text p t src) name = Ok c' ∧
        delete_source c' src = Ok c.
Proof.
  intros Hups Hsrc Hfresh Hne.
  pose proof (numbered_distinct _ (split_text_numbered p t src)) as Hnd.
  assert (Hshape : ∀ ch, ch ∈ Chunker._split_text p t src →
            Chunker.source (Chunker.metadata ch) = src).
  { intros ch Hch.
    pose proof (split_text_shaped p src t) as Hall.
    apply (proj1 (Forall_forall _ _) Hall) in Hch.
    unfold ChunkShape.shaped in Hch. tauto. }
  remember (Chunker._split_text p t src) as chunks eqn:Hchunks.
  assert (Hex : ∃ ch, ch ∈ chunks).
  { destruct chunks as [|ch rest]; [done|]. exists ch. left. }
  clear Hchunks Hne.
  eexists. split; [by apply add_documents_stores|].
  set (c' := list_to_map (batch_of name chunks) ∪ c).
  assert (Hfilter : filter (λ kv : string * entry, ¬ has_source src kv.2) c'
                    = c).
  { apply map_eq. intros id. rewrite map_lookup_filter.
    destruct (decide (id ∈ (batch_of name chunks).*1)) as [Hin|Hnin].
    - rewrite (Hfresh id Hin).
      apply list_elem_of_fmap in Hin as ([id' e] & -> & Hin).
      unfold batch_of in Hin.
      apply list_elem_of_fmap in Hin as (ch & [= -> ->] & Hch). cbn.
      unfold c'. rewrite batch_lookup by done. cbn.
      rewrite option_guard_False; [done|]. cbn. intros Hno. apply Hno.
      by apply Hshape.
    - unfold c'. rewrite batch_lookup_other by done.
      destruct (c !! id) as [e|] eqn:He; cbn; [|done].
      rewrite option_guard_True; [done|]. cbn. by eapply Hsrc. }
  unfold delete_source.
  destruct (get_ids c' src) as [|id ids] eqn:Hids.
  - exfalso. destruct Hex as [ch Hch].
    assert (Hin : chunk_id name ch ∈ get_ids c' src).
    { apply elem_of_get_ids. exists (entry_of ch). split.
      - unfold c'. by apply batch_lookup.
      - by apply Hshape. }
    rewrite Hids in Hin. by apply elem_of_nil in Hin.
  - rewrite <- Hids, delete_ids_source. by rewrite Hfilter.
Qed.

Lemma ingest_then_delete_restores_witness :
  (upserts strict_upsert ∧
   (∀ id e, two_entries !! id = Some e → ¬ has_source "f.txt" e) ∧
   (∀ id, id ∈ (batch_of "f.txt"
                  (Chunker._split_text Chunker.default_processor
                     Chunker.three_sentences "f.txt")).*1 →
          two_entries !! id = None) ∧
   Chunker._split_text Chunker.default_processor
     Chunker.three_sentences "f.txt" ≠ []) ∧
  ∃ c', add_documents strict_upsert two_entries
          (Chunker._split_text Chunker.default_processor
             Chunker.three_sentences "f.txt") "f.txt" = Ok c' ∧
        delete_source c' "f.txt" = Ok two_entries.
Proof.
  assert (H1 : ∀ id e, two_entries !! id = Some e → ¬ has_source "f.txt" e).
  { intros id e He. unfold two_entries in He.
    apply lookup_insert_Some in He as [[_ <-] | [_ He]]; [done|].
    apply lookup_singleton_Some in He as [_ <-]. done. }
  assert (H2 : ∀ id, id ∈ (batch_of "f.txt"
                  (Chunker._split_text Chunker.default_processor
                     Chunker.three_sentences "f.txt")).*1 →
          two_entries !! id = None).
  { intros id Hid. vm_compute in Hid.
    apply elem_of_cons in Hid as [-> | Hid]; [by vm_compute|].
    by apply elem_of_nil in Hid. }
  assert (H3 : Chunker._split_text Chunker.default_processor
                 Chunker.three_sentences "f.txt" ≠ []) by by vm_compute.
  split; [by repeat split; try apply strict_upsert_contract|].
  apply (ingest_then_delete_restores strict_upsert two_entries
           Chunker.default_processor Chunker.three_sentences "f.txt" "f.txt"
           strict_upsert_contract H1 H2 H3).
Defined.

End IngestDeleteFacts.

Section SearchFacts.
Import Store.



End SearchFacts.

(** ** The upload filter *)

Section AllowedFileFacts.
Import App.

Lemma after_last_dot_none (filename : text) :
  after_last_dot filename = None ↔ dot ∉ filename.
Proof.
  induction filename as [|c rest IH]; cbn.
  - split; [|done]. intros _ Hin. by apply elem_of_nil in Hin.
  - destruct (after_last_dot rest) as [e|].
    + split; [done|]. intros Hno. exfalso.
      destruct IH as [_ IH]. enough (Some e = None) by done.
      apply IH. intros Hin. apply Hno. by right.
    + destruct IH as [IH _]. specialize (IH eq_refl).
      destruct (decide (c = dot)) as [->|Hc].
      * split; [done|]. intros Hno. exfalso. apply Hno. left.
      * split; [|done]. intros _ Hin.
        apply elem_of_cons in Hin as [Heq | Hin]; [by subst|done].
Qed.

Lemma after_last_dot_spec (filename ext : text) :
  after_last_dot filename = Some ext ↔
  ∃ base, filename = base ++ dot :: ext ∧ dot ∉ ext.
Proof.
  revert ext. induction filename as [|c rest IH]; intros ext.
  - cbn. split; [done|]. intros (base & Heq & _). by destruct base.
  - pose proof (after_last_dot_none rest) as Hnone. cbn.
    destruct (after_last_dot rest) as [e|].
    + split.
      * intros [= <-]. destruct (proj1 (IH e) eq_refl) as (base & -> & Hno).
        by exists (c :: base).
      * intros (base & Heq & Hno).
        destruct base as [|b base]; cbn in Heq; injection Heq as Hb Hr.
        -- exfalso. destruct (proj1 (IH e) eq_refl) as (base & Hbase & _).
           subst. apply Hno, elem_of_app. right. left.
        -- apply IH. eauto.
    + assert (Hrest : dot ∉ rest) by by apply Hnone.
      destruct (decide (c = dot)) as [->|Hc].
      * split.
        -- intros [= <-]. by exists [].
        -- intros (base & Heq & Hno).
           destruct base as [|b base]; simplify_eq/=; [done|].
           exfalso. apply Hrest, elem_of_app. right. left.
      * split; [done|]. intros (base & Heq & Hno).
        destruct base as [|b base]; cbn in Heq; injection Heq as Hb Hr.
        -- by subst.
        -- subst. exfalso. apply Hrest, elem_of_app. right. left.
Qed.

Lemma allowed_extension_no_dot (ext : text) :
  Evaluator.lower ext ∈ ALLOWED_EXTENSIONS → dot ∉ ext.
Proof.
  intros Hext Hdot.
  assert (Hlow : dot ∈ Evaluator.lower ext).
  { unfold Evaluator.lower. apply list_elem_of_fmap. by exists dot. }
  unfold ALLOWED_EXTENSIONS in Hext.
  apply elem_of_cons in Hext as [Heq | Hext].
  { rewrite Heq in Hlow. vm_compute in Hlow.
    repeat (apply elem_of_cons in Hlow as [[=] | Hlow]).
    by apply elem_of_nil in Hlow. }
  apply elem_of_cons in Hext as [Heq | Hext]; [|by apply elem_of_nil in Hext].
  rewrite Heq in Hlow. vm_compute in Hlow.
  repeat (apply elem_of_cons in Hlow as [[=] | Hlow]).
  by apply elem_of_nil in Hlow.
Qed.

(** [allowed_file] accepts exactly the names that end with a dot and
    then [pdf] or [txt] in any letter case; a name without a dot, or with
    nothing after its last dot, is refused. *)
Theorem allowed_file_iff_extension (filename : text) :
  allowed_file filename = true ↔
  ∃ base ext, filename = base ++ dot :: ext ∧
              Evaluator.lower ext ∈ [txt "pdf"; txt "txt"].
Proof.
  unfold allowed_file. split.
  - destruct (after_last_dot filename) as [ext|] eqn:E; [|done].
    intros Hext%bool_decide_eq_true.
    apply after_last_dot_spec in E as (base & -> & _). by exists base, ext.
  - intros (base & ext & -> & Hext).
    assert (E : after_last_dot (base ++ dot :: ext) = Some ext).
    { apply after_last_dot_spec. exists base. split; [done|].
      by apply allowed_extension_no_dot. }
    rewrite E. by apply bool_decide_eq_true.
Qed.

(** Some names on the edge. *)
Example allowed_file_edges :
  allowed_file (txt "notes.TXT") = true ∧
  allowed_file (txt ".pdf") = true ∧
  allowed_file (txt "archive.tar.pdf") = true ∧
  allowed_file (txt "pdf") = false ∧
  allowed_file (txt "notes.txt.") = false ∧
  allowed_file (txt "notes.txt ") = false.
Proof. by vm_compute. Qed.

End AllowedFileFacts.

(** ** The context handed to the generator *)

Section BuildContextFacts.
Import Chain.

Lemma join_occurs (sep : text) (parts : list text) (i : nat) (part : text) :
  parts !! i = Some part → occurs_in part (join sep parts).
Proof.
  revert i. induction parts as [|p parts IH]; intros i Hi; [done|].
  destruct i as [|i].
  - injection Hi as ->. destruct parts as [|q parts].
    + exists [], []. cbn. by rewrite app_nil_r.
    + exists [], (sep ++ join sep (q :: parts)). done.
  - cbn in Hi. destruct (IH _ Hi) as (before & after & Heq).
    destruct parts as [|q parts]; [done|].
    change (join sep (p :: q :: parts))
      with (p ++ sep ++ join sep (q :: parts)).
    exists (p ++ sep ++ before), after. rewrite Heq.
    by rewrite <- !app_assoc.
Qed.

Lemma join_occurs_adjacent (sep : text) (parts : list text) (i : nat)
    (x y : text) :
  parts !! i = Some x → parts !! S i = Some y →
  occurs_in (x ++ sep ++ y) (join sep parts).
Proof.
  revert i. induction parts as [|p parts IH]; intros i Hx Hy; [done|].
  destruct i as [|i].
  - injection Hx as ->. destruct parts as [|q rest]; [done|].
    injection Hy as ->.
    change (join sep (x :: y :: rest)) with (x ++ sep ++ join sep (y :: rest)).
    destruct rest as [|r rest].
    + exists [], []. cbn [join app]. by rewrite <- !app_assoc, app_nil_r.
    + exists [], (sep ++ join sep (r :: rest)).
      change (join sep (y :: r :: rest))
        with (y ++ sep ++ join sep (r :: rest)).
      cbn [app]. by rewrite <- !app_assoc.
  - cbn in Hx, Hy. destruct (IH _ Hx Hy) as (before & after & Heq).
    destruct parts as [|q parts]; [done|].
    change (join sep (p :: q :: parts))
      with (p ++ sep ++ join sep (q :: parts)).
    exists (p ++ sep ++ before), after. rewrite Heq.
    by rewrite <- !app_assoc.
Qed.

Lemma render_part_spelled (i : nat) (doc : document) :
  render_part (Z.of_nat (S i)) doc =
    txt "[" ++ txt (pretty (Z.of_nat i + 1)) ++ txt "] Source: "
    ++ txt (match doc_source doc with
            | Some s => s
            | None => "Unknown"%string
            end)
    ++ "010"%char :: doc_text doc.
Proof.
  unfold render_part. replace (Z.of_nat (S i)) with (Z.of_nat i + 1) by lia.
  by destruct (doc_source doc).
Qed.

(** [_build_context] returns the sentence
    [No relevant documents found in the knowledge base.] exactly when it
    is given no documents.  Otherwise the block of the document at
    position [i] is [[i+1] Source: <source>], a newline and the text of
    the document, with [Unknown] for a document that has no source: the
    context of one document is its block; the context holds the block of
    every document; and the blocks of two documents that follow each
    other are separated by a rule of three dashes between two empty
    lines. *)
Theorem build_context_lists_every_document (documents : list document) :
  let block := λ (i : nat) (doc : document),
    txt "[" ++ txt (pretty (Z.of_nat i + 1)) ++ txt "] Source: "
    ++ txt (match doc_source doc with
            | Some s => s
            | None => "Unknown"%string
            end)
    ++ "010"%char :: doc_text doc in
  let rule : text :=
    "010"%char :: "010"%char :: txt "---" ++ ["010"%char; "010"%char] in
  (_build_context documents
     = txt "No relevant documents found in the knowledge base."
   ↔ documents = []) ∧
  (∀ doc, documents = [doc] → _build_context documents = block 0%nat doc) ∧
  (∀ i doc, documents !! i = Some doc →
     occurs_in (block i doc) (_build_context documents)) ∧
  (∀ i a b, documents !! i = Some a → documents !! S i = Some b →
     occurs_in (block i a ++ rule ++ block (S i) b)
               (_build_context documents)).
Proof.
  intros block rule.
  assert (Hblock : ∀ i doc, render_part (Z.of_nat (S i)) doc = block i doc)
    by apply render_part_spelled.
  split; [|split; [|split]].
  - split; [|by intros ->].
    destruct documents as [|d rest]; [done|]. intros H. exfalso.
    apply (f_equal head) in H. unfold _build_context in H.
    cbn [imap] in H. destruct (imap _ rest) in H; by vm_compute in H.
  - intros doc ->. unfold _build_context. cbn [imap join].
    apply (Hblock 0%nat).
  - intros i doc Hi. destruct documents as [|d rest]; [done|].
    unfold _build_context. rewrite <- Hblock. apply (join_occurs _ _ i).
    by rewrite list_lookup_imap, Hi.
  - intros i a b Ha Hb. destruct documents as [|d rest]; [done|].
    unfold _build_context. rewrite <- !Hblock.
    apply (join_occurs_adjacent delimiter _ i).
    + by rewrite list_lookup_imap, Ha.
    + by rewrite list_lookup_imap, Hb.
Qed.

(** Two documents, the second without a source. *)
Example build_context_two_documents :
  _build_context [ mkDocument (txt "Paris.") (Some "a.txt"%string);
                   mkDocument (txt "Rome.") None ]
  = txt "[1] Source: a.txt" ++ "010"%char :: txt "Paris."
    ++ "010"%char :: "010"%char :: txt "---" ++ "010"%char :: "010"%char
    :: txt "[2] Source: Unknown" ++ "010"%char :: txt "Rome.".
Proof. by vm_compute. Qed.

End BuildContextFacts.

(** ** Cleaning the text that was read *)

Section CleanTextFacts.
Import Cleaner.

Lemma flush_Forall (P : N → Prop) (least : nat) (repl run : ustr) :
  Forall P repl → Forall P run → Forall P (flush least repl run).
Proof.
  intros Hrepl Hrun. unfold flush. destruct run as [|a run]; [constructor|].
  destruct (least <=? _)%nat; [done|]. by apply Forall_reverse.
Qed.

Lemma flush_one_Forall (P : N → Prop) (repl run : ustr) :
  Forall P repl → Forall P (flush 1 repl run).
Proof. intros Hrepl. destruct run as [|a run]; [constructor|done]. Qed.

Lemma sub_runs_Forall (P : N → Prop) (cls : N → bool) (least : nat)
    (repl run s : ustr) :
  Forall P repl → Forall P run → Forall P s →
  Forall P (sub_runs cls least repl run s).
Proof.
  intros Hrepl Hrun Hs. revert run Hrun.
  induction Hs as [|c rest Hc Hrest IH]; intros run Hrun; cbn.
  - by apply flush_Forall.
  - destruct (cls c).
    + apply IH. by constructor.
    + apply Forall_app. split; [by apply flush_Forall|].
      constructor; [done|]. apply IH. constructor.
Qed.

Lemma sub_runs_one_Forall (P : N → Prop) (cls : N → bool)
    (repl run s : ustr) :
  Forall P repl → Forall (λ c, cls c = false → P c) s →
  Forall P (sub_runs cls 1 repl run s).
Proof.
  intros Hrepl Hs. revert run.
  induction Hs as [|c rest Hc Hrest IH]; intros run; cbn.
  - by apply flush_one_Forall.
  - destruct (cls c) eqn:E; [apply IH|].
    apply Forall_app. split; [by apply flush_one_Forall|].
    constructor; [by apply Hc | apply IH].
Qed.

Lemma ulstrip_head (s : ustr) (c : N) :
  head (lstrip s) = Some c → is_whitespace c = false.
Proof.
  induction s as [|a s IH]; cbn; [done|].
  destruct (is_whitespace a) eqn:E; [done|]. cbn. by intros [= <-].
Qed.

Lemma ulstrip_last (s : ustr) : lstrip s ≠ [] → last (lstrip s) = last s.
Proof.
  induction s as [|a s IH]; cbn; [done|].
  destruct (is_whitespace a); [|done]. intros Hne.
  rewrite IH by done. destruct s; [done|]. by rewrite last_cons_cons.
Qed.

Lemma ulstrip_suffix (s : ustr) : ∃ before, s = before ++ lstrip s.
Proof.
  induction s as [|a s [before IH]]; cbn; [by exists []|].
  destruct (is_whitespace a); [|by exists []].
  exists (a :: before). cbn. by f_equal.
Qed.

Lemma ustrip_infix (s : ustr) : ∃ before after, s = before ++ strip s ++ after.
Proof.
  unfold strip. destruct (ulstrip_suffix s) as [before Hs].
  destruct (ulstrip_suffix (reverse (lstrip s))) as [after Hr].
  exists before, (reverse after).
  rewrite <- reverse_app, <- Hr, reverse_involutive. exact Hs.
Qed.

Lemma dots_below_three_infix (k : nat) (before after : ustr) :
  dots_below_three k (before ++ DOT :: DOT :: DOT :: after) = false.
Proof.
  revert k. induction before as [|c before IH]; intros k.
  - cbn. destruct k as [|[|k]]; cbn; by rewrite ?andb_false_r.
  - rewrite <- app_comm_cons. cbn [dots_below_three].
    destruct (is_dot c); [|apply IH].
    rewrite (IH (S k)). apply andb_false_r.
Qed.

Lemma dots_below_three_mono (j k : nat) (s : ustr) :
  (j ≤ k)%nat → dots_below_three k s = true → dots_below_three j s = true.
Proof.
  revert j k. induction s as [|c s IH]; intros j k Hjk; [done|].
  cbn [dots_below_three]. destruct (is_dot c); [|done].
  intros [Hk Hs]%andb_prop. apply Nat.ltb_lt in Hk.
  apply andb_true_intro. split; [apply Nat.ltb_lt; lia|].
  apply (IH (S j) (S k)); [lia|done].
Qed.

Lemma dots_below_three_weaken (k : nat) (s : ustr) :
  dots_below_three k s = true → dots_below_three 0 s = true.
Proof. apply dots_below_three_mono. lia. Qed.

Lemma dots_below_three_drop (k : nat) (before s : ustr) :
  dots_below_three k (before ++ s) = true → dots_below_three 0 s = true.
Proof.
  revert k. induction before as [|c before IH]; intros k; cbn.
  - apply dots_below_three_weaken.
  - destruct (is_dot c); [|apply IH].
    intros [_ H]%andb_prop. by eapply IH.
Qed.

Lemma dots_below_three_take (k : nat) (s after : ustr) :
  dots_below_three k (s ++ after) = true → dots_below_three k s = true.
Proof.
  revert k. induction s as [|c s IH]; intros k; cbn; [done|].
  destruct (is_dot c); [|apply IH].
  intros [Hk H]%andb_prop. rewrite Hk. cbn. by eapply IH.
Qed.

Lemma sub_dots_below_three (run s : ustr) :
  Forall (λ c, c = DOT) run →
  dots_below_three 0 (sub_runs is_dot 3 [ELLIPSIS] run s) = true.
Proof.
  revert run. induction s as [|c rest IH]; intros run Hrun; cbn.
  - destruct run as [|a [|b [|d run]]]; [done| | |done].
    + apply Forall_cons in Hrun as [-> _]. done.
    + apply Forall_cons in Hrun as [-> Hrun].
      apply Forall_cons in Hrun as [-> _]. done.
  - destruct (is_dot c) eqn:E.
    + apply IH. constructor; [|done]. by apply N.eqb_eq in E.
    + specialize (IH [] (Forall_nil_2 _)).
      destruct run as [|a [|b [|d run]]]; cbn.
      * by rewrite E.
      * apply Forall_cons in Hrun as [-> _]. cbn. by rewrite E.
      * apply Forall_cons in Hrun as [-> Hrun].
        apply Forall_cons in Hrun as [-> _]. cbn. by rewrite E.
      * by rewrite E.
Qed.

(** What [_clean_text] returns holds only ASCII characters and the
    ellipsis U+2026, its only whitespace is the plain space, it neither
    starts nor ends with whitespace, and it has no three dots in a
    row. *)
Theorem clean_text_shape (text : ustr) :
  let cleaned := _clean_text text in
  Forall clean_char cleaned ∧
  (∀ c, head cleaned = Some c → is_whitespace c = false) ∧
  (∀ c, last cleaned = Some c → is_whitespace c = false) ∧
  ¬ ∃ before after, cleaned = before ++ [DOT; DOT; DOT] ++ after.
Proof.
  cbv zeta. unfold _clean_text.
  set (s1 := sub_runs is_whitespace 1 [SPACE] [] text).
  set (s2 := sub_runs non_ascii 1 [SPACE] [] s1).
  set (s3 := sub_runs is_dot 3 [ELLIPSIS] [] s2).
  assert (H1 : Forall (λ c, is_whitespace c = true → c = SPACE) s1).
  { apply sub_runs_one_Forall; [by repeat constructor|].
    apply Forall_forall. intros c _ Hc Hc'. congruence. }
  assert (H2 : Forall (λ c, (c < 128)%N ∧
                            (is_whitespace c = true → c = SPACE)) s2).
  { apply sub_runs_one_Forall.
    - by repeat constructor.
    - eapply Forall_impl; [exact H1|]. intros c Hc Hascii.
      split; [|done]. unfold non_ascii in Hascii.
      apply N.ltb_ge in Hascii. lia. }
  assert (H3 : Forall clean_char s3).
  { apply sub_runs_Forall.
    - constructor; [by left | constructor].
    - constructor.
    - eapply Forall_impl; [exact H2|]. intros c Hc. by right. }
  destruct (ustrip_infix s3) as (pre & post & Hs3).
  split; [|split; [|split]].
  - rewrite Hs3 in H3. apply Forall_app in H3 as [_ H3].
    by apply Forall_app in H3 as [H3 _].
  - intros c Hc. unfold strip in Hc. rewrite head_reverse in Hc.
    assert (Hne : lstrip (reverse (lstrip s3)) ≠ []).
    { intros Hnil. by rewrite Hnil in Hc. }
    rewrite ulstrip_last, last_reverse in Hc by done.
    by apply ulstrip_head in Hc.
  - intros c Hc. unfold strip in Hc. rewrite last_reverse in Hc.
    by apply ulstrip_head in Hc.
  - intros (before & after & Heq).
    pose proof (sub_dots_below_three [] s2 (Forall_nil_2 _)) as Hok.
    fold s3 in Hok. rewrite Hs3 in Hok.
    apply dots_below_three_drop, dots_below_three_take in Hok.
    cbn [app] in Heq. rewrite Heq, dots_below_three_infix in Hok. done.
Qed.

(** A run of characters outside ASCII between two spaces leaves three
    spaces, and cleaning twice turns the ellipsis of the first pass into
    a space. *)
Example clean_text_edges :
  _clean_text [120; 32; 233; 32; 121]%N = [120; 32; 32; 32; 121]%N ∧
  _clean_text (points "a....b..c") = [97; ELLIPSIS; 98; 46; 46; 99]%N ∧
  _clean_text (_clean_text (points "a...b")) = points "a b".
Proof. by vm_compute. Qed.

End CleanTextFacts.
